(** * Slot pool of the llama.cpp slot manager extension (src/index.js)

    A shallow embedding of the slot bookkeeping of [src/index.js]: the two
    arrays [extensionSettings.slots] and [extensionSettings.slotsUsage], the
    functions that mutate them ([initializeSlots], [acquireSlot],
    [releaseSlot], [releaseSlots]) and the function that reports on them
    ([updateSlotsAvailability]).

    - A JavaScript array is modelled with its holes, its stray (non-index)
      properties and the [RangeError] of its length setter.
    - Cache keys are strings, slot indices and time values are integers;
      [new Date()] reads a clock value that every call of [acquireSlot]
      receives as an argument, with no assumption on how the clock moves.
    - The functions run in a state-and-exception monad over the settings
      object and the two counters of the settings page.
    - The states considered are those of one session, starting from the
      two empty arrays that [initializeSlots] creates. Settings read back
      from the host's store are not modelled. *)

From Stdlib Require Import ZArith Lia.
From stdpp Require Import base option list gmap strings sorting.

Local Open Scope Z_scope.

(** ** JavaScript values stored in the arrays *)

(** A defined value of type [A], or [undefined]. *)
Inductive JsVal (A : Type) : Type :=
  | JsUndefined
  | JsOf (a : A).
Arguments JsUndefined {A}.
Arguments JsOf {A} a.

#[global] Instance JsVal_eq_dec {A} `{EqDecision A} : EqDecision (JsVal A).
Proof. solve_decision. Defined.

(** [typeof name === "string"], for the values the [slots] array holds. *)
Definition typeof_is_string (name : JsVal string) : bool :=
  match name with
  | JsOf _ => true
  | JsUndefined => false
  end.

(** Exceptions the modelled code can raise. *)
Inductive JsError : Type :=
  | RangeError. (* "Invalid array length" *)

(** ** JavaScript arrays *)

Module JsArray.

(** [items] are the properties named [0 .. length-1]; [None] is a hole (no
    own property of that name). [stray] are the own properties whose name
    is not an array index; the only such name the program ever writes is
    [-1]. *)
Record t (A : Type) : Type := mk {
  items : list (option (JsVal A));
  stray : gmap Z (JsVal A)
}.
Arguments mk {A} items stray.
Arguments items {A} _.
Arguments stray {A} _.

Definition empty {A} : t A := mk [] ∅.

(** Largest value the [length] setter accepts, 2^32 - 1. *)
Definition max_length : Z := 4294967295.

Section ops.
Context {A : Type}.
Implicit Types (a : t A) (v : JsVal A) (i : Z).

(** [a.length] *)
Definition length a : nat := List.length (items a).

(** The own property [i] of [a], if there is one. *)
Definition get_own a i : option (JsVal A) :=
  if decide (0 ≤ i) then mjoin (items a !! Z.to_nat i) else stray a !! i.

(** The value an element read yields: a hole reads as [undefined]. *)
Definition read (x : option (JsVal A)) : JsVal A := default JsUndefined x.

(** [a[i] = v]: inside the array the element is overwritten, past its
    end the array grows (with holes in between), and a negative [i]
    names a stray property. The program writes only at an index below the
    length or at [-1], so names from 2^32 - 1 on, which are no array
    indices either, never occur. *)
Definition set i v a : t A :=
  if decide (0 ≤ i) then
    if decide (i < Z.of_nat (length a)) then
      mk (<[Z.to_nat i := Some v]> (items a)) (stray a)
    else
      mk (items a ++ replicate (Z.to_nat i - length a) None ++ [Some v])
         (stray a)
  else mk (items a) (<[i := v]> (stray a)).

(** [delete a[i]]: leaves a hole, never changes the length, and does
    nothing when there is no such property. *)
Definition delete i a : t A :=
  if decide (0 ≤ i) then mk (<[Z.to_nat i := None]> (items a)) (stray a)
  else mk (items a) (base.delete i (stray a)).

(** [a.length = n]: truncates or pads with holes; stray properties stay.
    A value that is not a 32-bit unsigned integer is refused. *)
Definition set_length (n : Z) a : JsError + t A :=
  if decide (0 ≤ n ≤ max_length) then
    inr (mk (resize (Z.to_nat n) None (items a)) (stray a))
  else inl RangeError.

(** [a.fill(v)]: every index below the length becomes an own property. *)
Definition fill v a : t A :=
  mk (replicate (length a) (Some v)) (stray a).

(** [a.findIndex(P)]: visits every index below the length, holes
    included (read as [undefined]); [-1] when nothing satisfies [P]. *)
Definition findIndex (P : JsVal A → Prop) `{∀ x, Decision (P x)} a : Z :=
  match list_find (λ x, P (read x)) (items a) with
  | Some (i, _) => Z.of_nat i
  | None => -1
  end.

(** [a.forEach(f)] with the callback's effect on the variables it closes
    over made explicit as a state [S]; holes are skipped. *)
Fixpoint forEach_from {S : Type} (f : JsVal A → Z → S → S)
    (k : Z) (l : list (option (JsVal A))) (s : S) : S :=
  match l with
  | [] => s
  | x :: l' =>
      forEach_from f (k + 1) l'
        (match x with Some v => f v k s | None => s end)
  end.

Definition forEach {S : Type} (f : JsVal A → Z → S → S) a (s : S) : S :=
  forEach_from f 0 (items a) s.

(** [Object.values(a)]: the values of the own properties, array indices
    first. *)
Definition values a : list (JsVal A) :=
  omap id (items a) ++ (map_to_list (stray a)).*2.

End ops.
End JsArray.

(** ** The program state *)

(** [extensionSettings]: [slots] holds cache keys, [slotsUsage] the [Date]
    of the last allocation, as its time value in milliseconds. *)
Record Settings : Type := {
  slots : JsArray.t string;
  slotsUsage : JsArray.t Z
}.

(** The text of [#slot_manager_slots_used] and
    [#slot_manager_slots_available]; [None] until first written. *)
Record Page : Type := {
  slot_manager_slots_used : option nat;
  slot_manager_slots_available : option nat
}.

Record World : Type := {
  extensionSettings : Settings;
  page : Page
}.

(** The empty pool: both arrays exist and are empty, which is what the
    [||= []] defaults of [initializeSlots] establish before anything else
    happens. *)
Definition initial : World :=
  {| extensionSettings :=
       {| slots := JsArray.empty; slotsUsage := JsArray.empty |};
     page :=
       {| slot_manager_slots_used := None;
          slot_manager_slots_available := None |} |}.

(** ** State and exception monad *)

Inductive Completion (A : Type) : Type :=
  | Normal (a : A)
  | Throw (e : JsError).
Arguments Normal {A} a.
Arguments Throw {A} e.

Definition M (A : Type) : Type := World → Completion A * World.

#[global] Instance M_ret : MRet M := λ A a w, (Normal a, w).
#[global] Instance M_bind : MBind M := λ A B f m w,
  match m w with
  | (Normal a, w') => f a w'
  | (Throw e, w') => (Throw e, w')
  end.

Definition get_slots : M (JsArray.t string) :=
  λ w, (Normal (slots (extensionSettings w)), w).
Definition get_slotsUsage : M (JsArray.t Z) :=
  λ w, (Normal (slotsUsage (extensionSettings w)), w).
Definition put_slots (a : JsArray.t string) : M unit :=
  λ w, (Normal tt,
        {| extensionSettings :=
             {| slots := a; slotsUsage := slotsUsage (extensionSettings w) |};
           page := page w |}).
Definition put_slotsUsage (a : JsArray.t Z) : M unit :=
  λ w, (Normal tt,
        {| extensionSettings :=
             {| slots := slots (extensionSettings w); slotsUsage := a |};
           page := page w |}).
Definition set_used_text (n : nat) : M unit :=
  λ w, (Normal tt,
        {| extensionSettings := extensionSettings w;
           page := {| slot_manager_slots_used := Some n;
                      slot_manager_slots_available :=
                        slot_manager_slots_available (page w) |} |}).
Definition set_available_text (n : nat) : M unit :=
  λ w, (Normal tt,
        {| extensionSettings := extensionSettings w;
           page := {| slot_manager_slots_used :=
                        slot_manager_slots_used (page w);
                      slot_manager_slots_available := Some n |} |}).
Definition or_throw {A} (r : JsError + A) : M A :=
  λ w, match r with inl e => (Throw e, w) | inr a => (Normal a, w) end.

(** The state an operation leaves behind, whether it returned or threw. *)
Definition exec {A} (m : M A) (w : World) : World := (m w).2.
(** How it completed. *)
Definition outcome {A} (m : M A) (w : World) : Completion A := (m w).1.

(** ** The functions of src/index.js *)

(** The loop of [updateSlotsAvailability]. *)
Definition count_used (names : list (JsVal string)) : nat :=
  foldl (λ usedSlots name,
           if typeof_is_string name then S usedSlots else usedSlots)
        0%nat names.

Definition updateSlotsAvailability : M unit :=
  slots ← get_slots;
  let usedSlots := count_used (JsArray.values slots) in
  set_used_text usedSlots;;
  set_available_text (JsArray.length slots).

(** [totalSlots = 2] when the caller passes no argument. The calls to
    [console.debug], [saveSettingsDebounced] and [updateCharacterList] read
    the two arrays without writing them and are left out, here and
    below. *)
Definition initializeSlots (arg : option Z) : M unit :=
  let totalSlots := default 2 arg in
  s ← get_slots;
  s' ← or_throw (JsArray.set_length totalSlots s);
  put_slots s';;
  u ← get_slotsUsage;
  u' ← or_throw (JsArray.set_length totalSlots u);
  put_slotsUsage u';;
  updateSlotsAvailability.

(** [allocateSlot], the closure of [acquireSlot]; [now] is the time value
    that [new Date()] reads. *)
Definition allocateSlot (now : Z) (cacheKey : string) (index : Z) : M Z :=
  s ← get_slots;
  put_slots (JsArray.set index (JsOf cacheKey) s);;
  u ← get_slotsUsage;
  put_slotsUsage (JsArray.set index (JsOf now) u);;
  updateSlotsAvailability;;
  mret index.

(** The variable [leastRecentDate]: the number [Infinity] at first, later
    whatever array element was assigned to it. *)
Inductive LeastRecentDate : Type :=
  | Infinity
  | DateOf (date : JsVal Z).

(** [date < leastRecentDate]: both sides are converted to numbers, and
    [undefined] converts to [NaN], which compares false. *)
Definition js_lt (date : JsVal Z) (leastRecentDate : LeastRecentDate) : bool :=
  match date, leastRecentDate with
  | JsUndefined, _ => false
  | JsOf _, Infinity => true
  | JsOf _, DateOf JsUndefined => false
  | JsOf t, DateOf (JsOf t0) => bool_decide (t < t0)
  end.

(** The body of the [forEach] callback, acting on
    [(leastRecentDate, leastRecentIndex)]. *)
Definition least_recent_step (date : JsVal Z) (index : Z)
    (acc : LeastRecentDate * Z) : LeastRecentDate * Z :=
  if js_lt date acc.1 then (DateOf date, index) else acc.

Definition findLeastRecentSlotIndex : M Z :=
  u ← get_slotsUsage;
  mret (JsArray.forEach least_recent_step u (Infinity, -1)).2.

Definition acquireSlot (now : Z) (cacheKey : string) : M Z :=
  s ← get_slots;
  let existingIndex := JsArray.findIndex (λ key, key = JsOf cacheKey) s in
  if decide (existingIndex ≠ -1) then allocateSlot now cacheKey existingIndex
  else
    let firstAvailableIndex :=
      JsArray.findIndex (λ key, key = JsUndefined) s in
    if decide (firstAvailableIndex ≠ -1)
    then allocateSlot now cacheKey firstAvailableIndex
    else
      leastRecentIndex ← findLeastRecentSlotIndex;
      allocateSlot now cacheKey leastRecentIndex.

Definition releaseSlot (index : Z) : M unit :=
  s ← get_slots;
  put_slots (JsArray.delete index s);;
  u ← get_slotsUsage;
  put_slotsUsage (JsArray.delete index u);;
  updateSlotsAvailability.

Definition releaseSlots : M unit :=
  s ← get_slots;
  put_slots (JsArray.fill JsUndefined s);;
  u ← get_slotsUsage;
  put_slotsUsage (JsArray.fill JsUndefined u);;
  updateSlotsAvailability.

(** ** Sequences of operations *)

Inductive Op : Type :=
  | OpResize (totalSlots : option Z)
  | OpAcquire (now : Z) (key : string)
  | OpRelease (index : Z)
  | OpReleaseAll.

Definition step (op : Op) : World → World :=
  match op with
  | OpResize totalSlots => exec (initializeSlots totalSlots)
  | OpAcquire now key => exec (acquireSlot now key)
  | OpRelease index => exec (releaseSlot index)
  | OpReleaseAll => exec releaseSlots
  end.

Definition run (ops : list Op) (w : World) : World :=
  foldl (λ w op, step op w) w ops.

(** The states some sequence of operations leads to from the empty pool. *)
Definition reachable (w : World) : Prop := ∃ ops, w = run ops initial.

(** ** The pool as the specification sees it *)

(** An array element seen as "a value or empty": holes and [undefined] are
    both empty. *)
Definition defined {A} (x : option (JsVal A)) : option A :=
  match x with
  | Some (JsOf a) => Some a
  | _ => None
  end.

Definition capacity (w : World) : nat :=
  JsArray.length (slots (extensionSettings w)).
Definition occupants (w : World) : list (option string) :=
  defined <$> JsArray.items (slots (extensionSettings w)).
Definition lastUsed (w : World) : list (option Z) :=
  defined <$> JsArray.items (slotsUsage (extensionSettings w)).

(** The counters as [updateSlotsAvailability] displays them. *)
Definition usedCount (w : World) : option nat :=
  slot_manager_slots_used (page (exec updateSlotsAvailability w)).
Definition availableCount (w : World) : option nat :=
  slot_manager_slots_available (page (exec updateSlotsAvailability w)).

(** ** Auxiliary definitions *)

(** The world with settings [s] and the page counters refreshed from it. *)
Definition refreshed (s : Settings) : World :=
  {| extensionSettings := s;
     page := {| slot_manager_slots_used :=
                  Some (count_used (JsArray.values (slots s)));
                slot_manager_slots_available :=
                  Some (JsArray.length (slots s)) |} |}.

(** The index [acquireSlot] passes to [allocateSlot]. *)
Definition selected (key : string) (s : Settings) : Z :=
  let existingIndex := JsArray.findIndex (λ k, k = JsOf key) (slots s) in
  if decide (existingIndex ≠ -1) then existingIndex
  else
    let firstAvailableIndex :=
      JsArray.findIndex (λ k, k = JsUndefined) (slots s) in
    if decide (firstAvailableIndex ≠ -1) then firstAvailableIndex
    else (JsArray.forEach least_recent_step (slotsUsage s) (Infinity, -1)).2.

(** Slot [i] holds a key exactly when [slotsUsage[i]] holds a date, and the
    two arrays have the same length. *)
Definition synced (s : Settings) : Prop :=
  Forall2 (λ x y, is_Some (defined x) ↔ is_Some (defined y))
    (JsArray.items (slots s)) (JsArray.items (slotsUsage s)).

(** No key is held at two indices. *)
Definition unique (s : Settings) : Prop :=
  ∀ (i j : nat) key,
    (defined <$> JsArray.items (slots s)) !! i = Some (Some key) →
    (defined <$> JsArray.items (slots s)) !! j = Some (Some key) →
    i = j.

(** Every [OpAcquire] of the sequence runs in a state of positive
    capacity. *)
Fixpoint acquires_guarded (ops : list Op) (w : World) : Prop :=
  match ops with
  | [] => True
  | op :: ops' =>
      match op with
      | OpAcquire _ _ => (0 < capacity w)%nat
      | _ => True
      end ∧ acquires_guarded ops' (step op w)
  end.

(** ** The character list *)

(** What the host application provides to [updateCharacterList]: its list
    of characters, the default avatar and the thumbnail address of an
    avatar file. They are imported from the host's [script.js] and are
    parameters here. *)
Module Character.
Record t : Type := mk { name : string; avatar : string }.
End Character.

Record Host : Type := {
  characters : list Character.t;
  default_avatar : string;
  getThumbnailUrl : string → string → string
}.

(** An element of [data.characters]. The slot is the property name under
    which [slots] holds the character's name, written as the integer it
    spells. *)
Module Row.
Record t : Type := mk { avatar : string; name : string; slot : Z }.
End Row.

(** The index part of [Object.entries(a)]: the own properties named
    [k], [k + 1], ... in ascending order, holes skipped. *)
Fixpoint index_entries_from {A} (k : Z) (l : list (option (JsVal A)))
    : list (Z * JsVal A) :=
  match l with
  | [] => []
  | x :: l' =>
      match x with Some v => [(k, v)] | None => [] end
      ++ index_entries_from (k + 1) l'
  end.

(** [Object.entries(a)]: array indices first, in ascending order, then the
    stray properties. *)
Definition Object_entries {A} (a : JsArray.t A) : list (Z * JsVal A) :=
  index_entries_from 0 (JsArray.items a) ++ map_to_list (JsArray.stray a).

(** The avatar shown for [name]: that of the first character of this name,
    unless there is none or its avatar is "none". *)
Definition avatar_for (h : Host) (name : string) : string :=
  match list_find (λ x, Character.name x = name) (characters h) with
  | Some (_, character) =>
      if decide (Character.avatar character ≠ "none"%string)
      then getThumbnailUrl h "avatar" (Character.avatar character)
      else default_avatar h
  | None => default_avatar h
  end.

(** One turn of the loop of [updateCharacterList]: an entry that is no
    string is skipped, any other one pushes a row. *)
Definition character_row (h : Host) (entry : Z * JsVal string)
    : option Row.t :=
  match entry.2 with
  | JsUndefined => None
  | JsOf name =>
      Some {| Row.avatar := avatar_for h name;
              Row.name := name;
              Row.slot := entry.1 |}
  end.

(** [data.characters] as [updateCharacterList] builds it, before it is
    handed to the template. *)
Definition character_rows (h : Host) (s : Settings) : list Row.t :=
  omap (character_row h) (Object_entries (slots s)).

(** ** The event handlers *)

(** The variable [currentSlot]: [null] at first, later a slot index. *)
Inductive CurrentSlot : Type :=
  | SlotNull
  | SlotNumber (index : Z).

(** A session: the pool with its page counters, the character list last
    rendered into [#slot_manager_character_list] (as the data given to the
    template; [None] until first rendered) and [currentSlot]. *)
Record Session : Type := {
  world : World;
  slot_manager_character_list : option (list Row.t);
  currentSlot : CurrentSlot
}.

(** The session when the handlers are installed: the settings are
    whatever the host holds at that moment (line 19; [initializeSlots]
    keeps arrays that are there), the page shows whatever it shows, and
    [currentSlot] is [null]. *)
Definition session_at_load (w : World)
    (rendered : option (list Row.t)) : Session :=
  {| world := w;
     slot_manager_character_list := rendered;
     currentSlot := SlotNull |}.


Definition updateCharacterList (h : Host) (ses : Session) : Session :=
  {| world := world ses;
     slot_manager_character_list :=
       Some (character_rows h (extensionSettings (world ses)));
     currentSlot := currentSlot ses |}.

(** A function of the pool run in a session. [updateCharacterList] is the
    last call of [initializeSlots], [allocateSlot], [releaseSlot] and
    [releaseSlots], right after [updateSlotsAvailability]: it runs when
    the function gets that far, and not when it threw before. *)
Definition in_session {A} (h : Host) (m : M A) (ses : Session)
    : Completion A * Session :=
  match m (world ses) with
  | (Normal a, w) =>
      (Normal a,
       updateCharacterList h
         {| world := w;
            slot_manager_character_list := slot_manager_character_list ses;
            currentSlot := currentSlot ses |})
  | (Throw e, w) =>
      (Throw e,
       {| world := w;
          slot_manager_character_list := slot_manager_character_list ses;
          currentSlot := currentSlot ses |})
  end.

(** The events with a handler that changes the session. A click on a
    release button carries [Number(dataset.slot)], taken to be an
    integer. *)
Inductive Event : Type :=
  | AppReady
  | ClickUpdateCount
  | ClickRelease (slot : Z)
  | ClickReleaseAll
  | GenerateBeforeCombinePrompts (now : Z) (char : string).

Definition handle (h : Host) (ev : Event) (ses : Session) : Session :=
  match ev with
  | AppReady => (in_session h (initializeSlots None) ses).2
  | ClickUpdateCount => (in_session h (initializeSlots None) ses).2
  | ClickRelease slot => (in_session h (releaseSlot slot) ses).2
  | ClickReleaseAll => (in_session h releaseSlots ses).2
  | GenerateBeforeCombinePrompts now char =>
      match in_session h (acquireSlot now char) ses with
      | (Normal index, ses') =>
          {| world := world ses';
             slot_manager_character_list := slot_manager_character_list ses';
             currentSlot := SlotNumber index |}
      | (Throw _, ses') => ses'
      end
  end.

Definition run_events (h : Host) (events : list Event) (ses : Session)
    : Session :=
  foldl (λ ses ev, handle h ev ses) ses events.

(** The handler of [TEXT_COMPLETION_SETTINGS_READY]:
    [params["id_slot"] = currentSlot]. The other parameters hold values of
    some type [V]. *)
Definition on_text_completion_settings_ready {V}
    (params : gmap string (CurrentSlot + V)) (ses : Session)
    : gmap string (CurrentSlot + V) :=
  <["id_slot"%string := inl (currentSlot ses)]> params.

(** The operation of the pool that the handler of an event runs. *)
Definition op_of (ev : Event) : Op :=
  match ev with
  | AppReady | ClickUpdateCount => OpResize None
  | ClickRelease slot => OpRelease slot
  | ClickReleaseAll => OpReleaseAll
  | GenerateBeforeCombinePrompts now char => OpAcquire now char
  end.

(** Slot arrays in the form this code writes them at positive capacity:
    both of one length, a key in a slot exactly when the slot has a date,
    and no stray property. Settings without stored slots, as on first
    use, are of this form (both arrays empty). Arrays that come back from
    a JSON file are not: there a date is a string and an empty entry is
    [null], values the arrays of this model do not hold. *)
Definition settings_as_written (s : Settings) : Prop :=
  synced s ∧ JsArray.stray (slots s) = ∅.

(** What holds in a session once [APP_READY] was handled, when the
    settings were as written at load. *)
Definition session_ok (h : Host) (ses : Session) : Prop :=
  synced (extensionSettings (world ses)) ∧
  capacity (world ses) = 2%nat ∧
  JsArray.stray (slots (extensionSettings (world ses))) = ∅ ∧
  world ses = refreshed (extensionSettings (world ses)) ∧
  slot_manager_character_list ses
  = Some (character_rows h (extensionSettings (world ses))) ∧
  (currentSlot ses = SlotNull ∨
   ∃ i, currentSlot ses = SlotNumber i ∧ 0 ≤ i < 2).

(** * Proofs *)

(** ** What each function computes, in closed form *)

Lemma updateSlotsAvailability_run w :
  updateSlotsAvailability w = (Normal tt, refreshed (extensionSettings w)).
Proof. reflexivity. Qed.

Lemma allocateSlot_run now key i w :
  allocateSlot now key i w =
  (Normal i,
   refreshed
     {| slots := JsArray.set i (JsOf key) (slots (extensionSettings w));
        slotsUsage :=
          JsArray.set i (JsOf now) (slotsUsage (extensionSettings w)) |}).
Proof. reflexivity. Qed.

Lemma releaseSlot_run i w :
  releaseSlot i w =
  (Normal tt,
   refreshed
     {| slots := JsArray.delete i (slots (extensionSettings w));
        slotsUsage := JsArray.delete i (slotsUsage (extensionSettings w)) |}).
Proof. reflexivity. Qed.

Lemma releaseSlots_run w :
  releaseSlots w =
  (Normal tt,
   refreshed
     {| slots := JsArray.fill JsUndefined (slots (extensionSettings w));
        slotsUsage :=
          JsArray.fill JsUndefined (slotsUsage (extensionSettings w)) |}).
Proof. reflexivity. Qed.

Lemma initializeSlots_ok arg w :
  0 ≤ default 2 arg ≤ JsArray.max_length →
  initializeSlots arg w =
  (Normal tt,
   refreshed
     {| slots :=
          JsArray.mk
            (resize (Z.to_nat (default 2 arg)) None
               (JsArray.items (slots (extensionSettings w))))
            (JsArray.stray (slots (extensionSettings w)));
        slotsUsage :=
          JsArray.mk
            (resize (Z.to_nat (default 2 arg)) None
               (JsArray.items (slotsUsage (extensionSettings w))))
            (JsArray.stray (slotsUsage (extensionSettings w))) |}).
Proof.
  intros Hn. unfold initializeSlots, mbind, M_bind, get_slots, or_throw.
  unfold JsArray.set_length. destruct (decide _) as [|Hno]; [|by destruct Hno].
  reflexivity.
Qed.

Lemma initializeSlots_throw arg w :
  ¬ (0 ≤ default 2 arg ≤ JsArray.max_length) →
  initializeSlots arg w = (Throw RangeError, w).
Proof.
  intros Hn. unfold initializeSlots, mbind, M_bind, get_slots, or_throw.
  unfold JsArray.set_length. destruct (decide _) as [Hyes|]; [by destruct Hn|].
  reflexivity.
Qed.

Lemma acquireSlot_run now key w :
  acquireSlot now key w =
  allocateSlot now key (selected key (extensionSettings w)) w.
Proof.
  unfold acquireSlot, selected, mbind, M_bind, get_slots. simpl.
  repeat case_decide; reflexivity.
Qed.

(** ** Array scans *)

Section find_index.
Context {A : Type} `{EqDecision A}.
Implicit Types (a : JsArray.t A) (x : option (JsVal A)).

Lemma read_defined x v : JsArray.read x = JsOf v ↔ defined x = Some v.
Proof. destruct x as [[|?]|]; simpl; split; congruence. Qed.

Lemma read_undefined x : JsArray.read x = JsUndefined ↔ defined x = None.
Proof. destruct x as [[|?]|]; simpl; split; congruence. Qed.

Lemma findIndex_range (P : JsVal A → Prop) `{∀ v, Decision (P v)} a :
  JsArray.findIndex P a = -1 ∨
  0 ≤ JsArray.findIndex P a < Z.of_nat (JsArray.length a).
Proof.
  unfold JsArray.findIndex, JsArray.length.
  destruct (list_find _ _) as [[i x]|] eqn:Hf; [right|by left].
  apply list_find_Some in Hf as (Hi & _ & _).
  apply lookup_lt_Some in Hi. lia.
Qed.

Lemma findIndex_first (P : JsVal A → Prop) `{∀ v, Decision (P v)} a
    (i : nat) x :
  JsArray.items a !! i = Some x → P (JsArray.read x) →
  (∀ j y, JsArray.items a !! j = Some y → (j < i)%nat →
          ¬ P (JsArray.read y)) →
  JsArray.findIndex P a = Z.of_nat i.
Proof.
  intros Hi HP Hleast. unfold JsArray.findIndex.
  assert (list_find (λ y, P (JsArray.read y)) (JsArray.items a)
          = Some (i, x)) as ->; [|done].
  apply list_find_Some. auto.
Qed.

Lemma findIndex_absent (P : JsVal A → Prop) `{∀ v, Decision (P v)} a :
  JsArray.findIndex P a = -1 ↔
  ∀ j y, JsArray.items a !! j = Some y → ¬ P (JsArray.read y).
Proof.
  unfold JsArray.findIndex.
  destruct (list_find _ _) as [[i x]|] eqn:Hf.
  - apply list_find_Some in Hf as (Hi & HP & _). split; [lia|].
    intros Hno. by destruct (Hno _ _ Hi).
  - split; [|done]. intros _ j y Hj.
    apply list_find_None in Hf. by eapply Forall_lookup_1 in Hf.
Qed.

Lemma findIndex_hit (P : JsVal A → Prop) `{∀ v, Decision (P v)} a :
  JsArray.findIndex P a ≠ -1 →
  ∃ (i : nat) x, JsArray.findIndex P a = Z.of_nat i ∧
    JsArray.items a !! i = Some x ∧ P (JsArray.read x) ∧
    ∀ j y, JsArray.items a !! j = Some y → (j < i)%nat →
           ¬ P (JsArray.read y).
Proof.
  unfold JsArray.findIndex.
  destruct (list_find _ _) as [[i x]|] eqn:Hf; [|done].
  intros _. apply list_find_Some in Hf. exists i, x. tauto.
Qed.
End find_index.

(** The scan of [findLeastRecentSlotIndex], started from any accumulator at
    any offset: either no element compares below the accumulator and it is
    returned as it was, or the result is the first smallest time value. *)
Lemma js_lt_date t t0 : js_lt (JsOf t) (DateOf (JsOf t0)) = true ↔ t < t0.
Proof. simpl. by rewrite bool_decide_eq_true. Qed.

Lemma js_lt_trans t t0 d :
  js_lt (JsOf t0) d = true → t < t0 → js_lt (JsOf t) d = true.
Proof.
  destruct d as [|[|td]]; simpl; try done.
  rewrite !bool_decide_eq_true. lia.
Qed.

Lemma js_lt_between t t0 d :
  js_lt (JsOf t0) d = false → js_lt (JsOf t) d = true → t < t0.
Proof.
  destruct d as [|[|td]]; simpl; try done.
  rewrite bool_decide_eq_false, bool_decide_eq_true. lia.
Qed.

Lemma shift_index k (n : nat) : k + 1 + Z.of_nat n = k + Z.of_nat (S n).
Proof. lia. Qed.

Lemma least_recent_scan (l : list (option (JsVal Z))) k d i :
  let r := JsArray.forEach_from least_recent_step k l (d, i) in
  (r = (d, i) ∧
   ∀ (j : nat) t, (defined <$> l) !! j = Some (Some t) →
                  js_lt (JsOf t) d = false)
  ∨
  (∃ (n : nat) t,
     r = (DateOf (JsOf t), k + Z.of_nat n) ∧
     (defined <$> l) !! n = Some (Some t) ∧
     js_lt (JsOf t) d = true ∧
     (∀ (j : nat) t', (defined <$> l) !! j = Some (Some t') → t ≤ t') ∧
     (∀ (j : nat) t', (j < n)%nat →
                      (defined <$> l) !! j = Some (Some t') → t < t')).
Proof.
  revert k d i. induction l as [|x l IH]; intros k d i; simpl.
  { left. split; [done|]. intros j t. by rewrite lookup_nil. }
  destruct x as [[|t0]|]; simpl.
  - (* undefined: compares false *)
    change (least_recent_step JsUndefined k (d, i)) with (d, i).
    destruct (IH (k + 1) d i) as [[-> Hno]|(n & t & -> & Hn & Hlt & Hmin & Hfst)].
    + left. split; [done|]. intros [|j] t; simpl; [done|]. apply Hno.
    + right. exists (S n), t. split_and!; try done.
      * by rewrite shift_index.
      * intros [|j] t'; simpl; [done|]. apply Hmin.
      * intros [|j] t' Hj; simpl; [done|]. apply Hfst. lia.
  - (* a date *)
    change (least_recent_step (JsOf t0) k (d, i))
      with (if js_lt (JsOf t0) d then (DateOf (JsOf t0), k) else (d, i)).
    destruct (js_lt (JsOf t0) d) eqn:Hcmp.
    + destruct (IH (k + 1) (DateOf (JsOf t0)) k)
        as [[-> Hno]|(n & t & -> & Hn & Hlt & Hmin & Hfst)].
      * right. exists 0%nat, t0. split_and!; try done.
        -- by rewrite Z.add_0_r.
        -- intros [|j] t'; simpl; [intros [= ->]; lia|].
           intros Hj. specialize (Hno _ _ Hj).
           simpl in Hno. apply bool_decide_eq_false in Hno. lia.
        -- intros j t' Hj. lia.
      * apply js_lt_date in Hlt.
        right. exists (S n), t. split_and!; try done.
        -- by rewrite shift_index.
        -- by eapply js_lt_trans.
        -- intros [|j] t'; simpl; [intros [= ->]; lia|]. apply Hmin.
        -- intros [|j] t' Hj; simpl; [intros [= ->]; lia|]. apply Hfst. lia.
    + destruct (IH (k + 1) d i)
        as [[-> Hno]|(n & t & -> & Hn & Hlt & Hmin & Hfst)].
      * left. split; [done|].
        intros [|j] t; simpl; [by intros [= ->]|]. apply Hno.
      * right. exists (S n), t. split_and!; try done.
        -- by rewrite shift_index.
        -- intros [|j] t'; simpl; [|apply Hmin].
           intros [= ->]. pose proof (js_lt_between _ _ _ Hcmp Hlt). lia.
        -- intros [|j] t' Hj; simpl; [|apply Hfst; lia].
           intros [= ->]. by eapply js_lt_between.
  - (* a hole: skipped *)
    destruct (IH (k + 1) d i) as [[-> Hno]|(n & t & -> & Hn & Hlt & Hmin & Hfst)].
    + left. split; [done|]. intros [|j] t; simpl; [done|]. apply Hno.
    + right. exists (S n), t. split_and!; try done.
      * by rewrite shift_index.
      * intros [|j] t'; simpl; [done|]. apply Hmin.
      * intros [|j] t' Hj; simpl; [done|]. apply Hfst. lia.
Qed.

(** ** Array updates *)

Section array_update.
Context {A : Type}.
Implicit Types (a : JsArray.t A) (v : JsVal A) (i : Z).

Lemma set_items_inside i v a :
  0 ≤ i < Z.of_nat (JsArray.length a) →
  JsArray.items (JsArray.set i v a)
  = <[Z.to_nat i := Some v]> (JsArray.items a).
Proof. intros ?. unfold JsArray.set. by repeat case_decide; try lia. Qed.

Lemma set_items_negative i v a :
  i < 0 → JsArray.items (JsArray.set i v a) = JsArray.items a.
Proof. intros ?. unfold JsArray.set. by repeat case_decide; try lia. Qed.

Lemma set_length_same i v a :
  i < Z.of_nat (JsArray.length a) →
  JsArray.length (JsArray.set i v a) = JsArray.length a.
Proof.
  intros ?. unfold JsArray.set, JsArray.length in *.
  repeat case_decide; simpl; try lia. by rewrite length_insert.
Qed.

Lemma get_own_set i v a : JsArray.get_own (JsArray.set i v a) i = Some v.
Proof.
  unfold JsArray.get_own, JsArray.set, JsArray.length.
  repeat case_decide; simpl; try lia.
  - rewrite list_lookup_insert_eq by lia. done.
  - rewrite lookup_app_r by lia.
    rewrite lookup_app_r by (rewrite length_replicate; lia).
    rewrite length_replicate.
    by replace (Z.to_nat i - length (JsArray.items a)
                - (Z.to_nat i - length (JsArray.items a)))%nat with 0%nat
      by lia.
  - by rewrite lookup_insert_eq.
Qed.

Lemma delete_items_outside i a :
  ¬ (0 ≤ i < Z.of_nat (JsArray.length a)) →
  JsArray.items (JsArray.delete i a) = JsArray.items a.
Proof.
  intros ?. unfold JsArray.delete, JsArray.length in *.
  case_decide; simpl; [|done]. apply list_insert_ge. lia.
Qed.

Lemma delete_items_inside i a :
  0 ≤ i →
  JsArray.items (JsArray.delete i a)
  = <[Z.to_nat i := None]> (JsArray.items a).
Proof. intros ?. unfold JsArray.delete. by case_decide. Qed.

Lemma array_delete_twice i a :
  JsArray.delete i (JsArray.delete i a) = JsArray.delete i a.
Proof.
  unfold JsArray.delete. case_decide; simpl; f_equal.
  - by rewrite list_insert_insert_eq.
  - by rewrite delete_delete_eq.
Qed.
End array_update.

(** ** Invariants of the reachable states *)

Lemma run_snoc ops op w : run (ops ++ [op]) w = step op (run ops w).
Proof. unfold run. by rewrite foldl_app. Qed.

Lemma reachable_initial : reachable initial.
Proof. by exists []. Qed.

Lemma reachable_step op w : reachable w → reachable (step op w).
Proof. intros [ops ->]. exists (ops ++ [op]). by rewrite run_snoc. Qed.

Lemma reachable_induction (P : World → Prop) :
  P initial →
  (∀ op w, reachable w → P w → P (step op w)) →
  ∀ w, reachable w → P w.
Proof.
  intros Hinit Hstep w [ops ->].
  induction ops as [|op ops IH] using rev_ind; [done|].
  rewrite run_snoc. apply Hstep; [by exists ops|done].
Qed.

Lemma synced_length s :
  synced s → JsArray.length (slotsUsage s) = JsArray.length (slots s).
Proof. intros H. symmetry. exact (Forall2_length _ _ _ H). Qed.

Lemma selected_range key s :
  synced s →
  selected key s = -1 ∨ 0 ≤ selected key s < Z.of_nat (JsArray.length (slots s)).
Proof.
  intros Hs. unfold selected.
  case_decide as Hex.
  { destruct (findIndex_range (λ k, k = JsOf key) (slots s)); [done|by right]. }
  case_decide as Hav.
  { destruct (findIndex_range (λ k, k = JsUndefined) (slots s));
      [done|by right]. }
  unfold JsArray.forEach.
  destruct (least_recent_scan (JsArray.items (slotsUsage s)) 0 Infinity (-1))
    as [[-> _]|(n & t & -> & Hn & _)]; [by left|right].
  simpl. apply lookup_lt_Some in Hn. rewrite length_fmap in Hn.
  rewrite <- (synced_length s Hs). unfold JsArray.length. lia.
Qed.

Lemma synced_allocate key now i s :
  synced s →
  i = -1 ∨ 0 ≤ i < Z.of_nat (JsArray.length (slots s)) →
  synced {| slots := JsArray.set i (JsOf key) (slots s);
            slotsUsage := JsArray.set i (JsOf now) (slotsUsage s) |}.
Proof.
  intros Hs Hi. pose proof (synced_length s Hs) as Hlen.
  unfold synced in *. simpl. destruct Hi as [->|Hi].
  - by rewrite !set_items_negative by lia.
  - rewrite !set_items_inside by lia.
    apply Forall2_insert; [done|]. simpl. split; eauto.
Qed.

Lemma synced_release i s :
  synced s →
  synced {| slots := JsArray.delete i (slots s);
            slotsUsage := JsArray.delete i (slotsUsage s) |}.
Proof.
  intros Hs. unfold synced in *. simpl. unfold JsArray.delete.
  case_decide; simpl; [|done]. apply Forall2_insert; [done|].
  simpl. split; intros []; done.
Qed.

Lemma synced_fill s :
  synced s →
  synced {| slots := JsArray.fill JsUndefined (slots s);
            slotsUsage := JsArray.fill JsUndefined (slotsUsage s) |}.
Proof.
  intros Hs. pose proof (synced_length s Hs) as Hlen.
  unfold synced. simpl. rewrite Hlen.
  apply Forall2_replicate. simpl. split; intros []; done.
Qed.

Lemma synced_resize (n : nat) s :
  synced s →
  synced
    {| slots :=
         JsArray.mk (resize n None (JsArray.items (slots s)))
           (JsArray.stray (slots s));
       slotsUsage :=
         JsArray.mk (resize n None (JsArray.items (slotsUsage s)))
           (JsArray.stray (slotsUsage s)) |}.
Proof.
  intros Hs. unfold synced in *. simpl.
  apply Forall2_resize; [|done]. simpl. split; intros []; done.
Qed.

Lemma step_resize arg w :
  step (OpResize arg) w = w ∨
  (0 ≤ default 2 arg ≤ JsArray.max_length ∧
   step (OpResize arg) w =
   refreshed
     {| slots :=
          JsArray.mk
            (resize (Z.to_nat (default 2 arg)) None
               (JsArray.items (slots (extensionSettings w))))
            (JsArray.stray (slots (extensionSettings w)));
        slotsUsage :=
          JsArray.mk
            (resize (Z.to_nat (default 2 arg)) None
               (JsArray.items (slotsUsage (extensionSettings w))))
            (JsArray.stray (slotsUsage (extensionSettings w))) |}).
Proof.
  simpl. unfold exec.
  destruct (decide (0 ≤ default 2 arg ≤ JsArray.max_length)) as [Hn|Hn].
  - right. by rewrite initializeSlots_ok.
  - left. by rewrite initializeSlots_throw.
Qed.

Lemma step_acquire now key w :
  step (OpAcquire now key) w =
  refreshed
    {| slots :=
         JsArray.set (selected key (extensionSettings w)) (JsOf key)
           (slots (extensionSettings w));
       slotsUsage :=
         JsArray.set (selected key (extensionSettings w)) (JsOf now)
           (slotsUsage (extensionSettings w)) |}.
Proof. simpl. unfold exec. by rewrite acquireSlot_run, allocateSlot_run. Qed.

Lemma step_release i w :
  step (OpRelease i) w =
  refreshed
    {| slots := JsArray.delete i (slots (extensionSettings w));
       slotsUsage := JsArray.delete i (slotsUsage (extensionSettings w)) |}.
Proof. reflexivity. Qed.

Lemma step_releaseAll w :
  step OpReleaseAll w =
  refreshed
    {| slots := JsArray.fill JsUndefined (slots (extensionSettings w));
       slotsUsage :=
         JsArray.fill JsUndefined (slotsUsage (extensionSettings w)) |}.
Proof. reflexivity. Qed.

Lemma reachable_synced w : reachable w → synced (extensionSettings w).
Proof.
  revert w. apply reachable_induction.
  { constructor. }
  intros [arg|now key|i|] w _ IH.
  - destruct (step_resize arg w) as [->|[_ ->]]; [done|].
    by apply synced_resize.
  - rewrite step_acquire. apply synced_allocate; [done|].
    by apply selected_range.
  - rewrite step_release. by apply synced_release.
  - rewrite step_releaseAll. by apply synced_fill.
Qed.

(** ** The pool view after each operation *)

Lemma occupants_refreshed s :
  occupants (refreshed s) = defined <$> JsArray.items (slots s).
Proof. reflexivity. Qed.

Lemma lastUsed_refreshed s :
  lastUsed (refreshed s) = defined <$> JsArray.items (slotsUsage s).
Proof. reflexivity. Qed.

Lemma capacity_refreshed s :
  capacity (refreshed s) = JsArray.length (slots s).
Proof. reflexivity. Qed.

Lemma capacity_occupants w : length (occupants w) = capacity w.
Proof. unfold occupants, capacity, JsArray.length. by rewrite length_fmap. Qed.

Lemma reachable_lastUsed_length w :
  reachable w → length (lastUsed w) = capacity w.
Proof.
  intros Hr. unfold lastUsed, capacity. rewrite length_fmap.
  exact (synced_length _ (reachable_synced w Hr)).
Qed.

(** In a reachable state a slot is empty exactly when it has no date. *)
Lemma reachable_stamped w (i : nat) :
  reachable w →
  (occupants w !! i = Some None ↔ lastUsed w !! i = Some None) ∧
  (∀ key, occupants w !! i = Some (Some key) →
          ∃ t, lastUsed w !! i = Some (Some t)).
Proof.
  intros Hr. pose proof (reachable_synced w Hr) as Hs.
  unfold synced in Hs. unfold occupants, lastUsed.
  rewrite !list_lookup_fmap.
  destruct (JsArray.items (slots (extensionSettings w)) !! i) as [x|] eqn:Hx;
    destruct (JsArray.items (slotsUsage (extensionSettings w)) !! i)
      as [y|] eqn:Hy; simpl.
  - pose proof (Forall2_lookup_lr _ _ _ _ _ _ Hs Hx Hy) as [H1 H2].
    split.
    + split; intros [= Hn]; f_equal.
      * destruct (defined y); [|done].
        destruct H2 as [? ?]; [by eexists|congruence].
      * destruct (defined x); [|done].
        destruct H1 as [? ?]; [by eexists|congruence].
    + intros key [= Hk]. destruct H1 as [t Ht]; [by eexists|].
      exists t. by rewrite Ht.
  - apply lookup_lt_Some in Hx. apply lookup_ge_None in Hy.
    apply Forall2_length in Hs. lia.
  - apply lookup_lt_Some in Hy. apply lookup_ge_None in Hx.
    apply Forall2_length in Hs. lia.
  - split; [split; done|done].
Qed.

Lemma acquire_outcome now key w :
  outcome (acquireSlot now key) w
  = Normal (selected key (extensionSettings w)).
Proof. unfold outcome. by rewrite acquireSlot_run, allocateSlot_run. Qed.

Lemma acquire_occupants now key w :
  0 ≤ selected key (extensionSettings w) < Z.of_nat (capacity w) →
  occupants (exec (acquireSlot now key) w)
  = <[Z.to_nat (selected key (extensionSettings w)) := Some key]>
      (occupants w).
Proof.
  intros Hi. change (exec (acquireSlot now key) w)
    with (step (OpAcquire now key) w).
  rewrite step_acquire, occupants_refreshed. simpl.
  rewrite set_items_inside by done. by rewrite list_fmap_insert.
Qed.

Lemma acquire_lastUsed now key w :
  0 ≤ selected key (extensionSettings w) < Z.of_nat (length (lastUsed w)) →
  lastUsed (exec (acquireSlot now key) w)
  = <[Z.to_nat (selected key (extensionSettings w)) := Some now]>
      (lastUsed w).
Proof.
  intros Hi. change (exec (acquireSlot now key) w)
    with (step (OpAcquire now key) w).
  rewrite step_acquire, lastUsed_refreshed. simpl.
  unfold lastUsed in Hi. rewrite length_fmap in Hi.
  rewrite set_items_inside by done. by rewrite list_fmap_insert.
Qed.

Lemma acquire_capacity now key w :
  selected key (extensionSettings w) < Z.of_nat (capacity w) →
  capacity (exec (acquireSlot now key) w) = capacity w.
Proof.
  intros Hi. change (exec (acquireSlot now key) w)
    with (step (OpAcquire now key) w).
  rewrite step_acquire, capacity_refreshed. simpl.
  by rewrite set_length_same.
Qed.

(** How [selected] reads on the view. *)
Lemma selected_existing key w (i : nat) :
  occupants w !! i = Some (Some key) →
  (∀ j : nat, (j < i)%nat → occupants w !! j ≠ Some (Some key)) →
  selected key (extensionSettings w) = Z.of_nat i.
Proof.
  intros Hi Hleast. unfold occupants in *.
  rewrite list_lookup_fmap in Hi.
  destruct (JsArray.items (slots (extensionSettings w)) !! i) as [x|] eqn:Hx;
    [|done].
  injection Hi as Hi.
  assert (JsArray.findIndex (λ k, k = JsOf key) (slots (extensionSettings w))
          = Z.of_nat i) as Hf.
  { eapply findIndex_first; [done|by apply read_defined|].
    intros j y Hj Hlt Hy. apply (Hleast j Hlt).
    rewrite list_lookup_fmap, Hj. simpl. f_equal. by apply read_defined. }
  unfold selected. rewrite Hf. case_decide; [done|lia].
Qed.

Lemma selected_not_existing key w :
  Some key ∉ occupants w →
  JsArray.findIndex (λ k, k = JsOf key) (slots (extensionSettings w)) = -1.
Proof.
  intros Hno. apply findIndex_absent. intros j y Hj Hy.
  apply Hno. apply list_elem_of_lookup. exists j.
  unfold occupants. rewrite list_lookup_fmap, Hj. simpl. f_equal.
  by apply read_defined.
Qed.

Lemma selected_first_empty key w (i : nat) :
  Some key ∉ occupants w →
  occupants w !! i = Some None →
  (∀ j : nat, (j < i)%nat → occupants w !! j ≠ Some None) →
  selected key (extensionSettings w) = Z.of_nat i.
Proof.
  intros Hno Hi Hleast. unfold selected.
  rewrite (selected_not_existing _ _ Hno). case_decide; [done|].
  unfold occupants in *. rewrite list_lookup_fmap in Hi.
  destruct (JsArray.items (slots (extensionSettings w)) !! i) as [x|] eqn:Hx;
    [|done].
  injection Hi as Hi.
  assert (JsArray.findIndex (λ k, k = JsUndefined)
            (slots (extensionSettings w)) = Z.of_nat i) as Hf.
  { eapply findIndex_first; [done|by apply read_undefined|].
    intros j y Hj Hlt Hy. apply (Hleast j Hlt).
    rewrite list_lookup_fmap, Hj. simpl. f_equal. by apply read_undefined. }
  rewrite Hf. case_decide; [done|lia].
Qed.

Lemma selected_no_empty w :
  None ∉ occupants w →
  JsArray.findIndex (λ k, k = JsUndefined) (slots (extensionSettings w)) = -1.
Proof.
  intros Hno. apply findIndex_absent. intros j y Hj Hy.
  apply Hno. apply list_elem_of_lookup. exists j.
  unfold occupants. rewrite list_lookup_fmap, Hj. simpl. f_equal.
  by apply read_undefined.
Qed.

Lemma selected_eviction key w :
  Some key ∉ occupants w → None ∉ occupants w →
  selected key (extensionSettings w)
  = (JsArray.forEach least_recent_step (slotsUsage (extensionSettings w))
       (Infinity, -1)).2.
Proof.
  intros Hk He. unfold selected.
  rewrite (selected_not_existing _ _ Hk), (selected_no_empty _ He).
  by repeat case_decide.
Qed.

Lemma eviction_choice w :
  reachable w → (0 < capacity w)%nat → None ∉ occupants w →
  ∃ (n : nat) t,
    (JsArray.forEach least_recent_step (slotsUsage (extensionSettings w))
       (Infinity, -1)).2 = Z.of_nat n ∧
    lastUsed w !! n = Some (Some t) ∧
    (∀ (j : nat) t', lastUsed w !! j = Some (Some t') → t ≤ t') ∧
    (∀ j : nat, lastUsed w !! j = Some (Some t) → (n ≤ j)%nat).
Proof.
  intros Hr Hcap Hfull. unfold JsArray.forEach.
  destruct (least_recent_scan
              (JsArray.items (slotsUsage (extensionSettings w)))
              0 Infinity (-1))
    as [[_ Hno]|(n & t & -> & Hn & _ & Hmin & Hfst)].
  - exfalso. rewrite <- capacity_occupants in Hcap.
    destruct (lookup_lt_is_Some_2 (occupants w) 0 Hcap) as [[key|] H0].
    + destruct (reachable_stamped w 0 Hr) as [_ Hst].
      destruct (Hst key H0) as [t Ht]. by specialize (Hno _ _ Ht).
    + apply Hfull. apply list_elem_of_lookup. by exists 0%nat.
  - exists n, t. split_and!; [simpl; lia|done|done|].
    intros j Hj. destruct (decide (n ≤ j)%nat) as [|Hlt]; [done|].
    assert (t < t); [|lia]. apply (Hfst j); [lia|done].
Qed.

Lemma unique_allocate key now s :
  synced s → unique s →
  unique {| slots := JsArray.set (selected key s) (JsOf key) (slots s);
            slotsUsage := JsArray.set (selected key s) (JsOf now)
                            (slotsUsage s) |}.
Proof.
  intros Hs Hu. unfold unique in *. simpl.
  destruct (selected_range key s Hs) as [Hneg|Hin].
  { rewrite Hneg. by rewrite set_items_negative by lia. }
  rewrite set_items_inside by done. rewrite list_fmap_insert. simpl.
  set (n := Z.to_nat (selected key s)).
  set (view := defined <$> JsArray.items (slots s)) in *.
  assert (n < length view)%nat as Hn.
  { unfold view, n. rewrite length_fmap. unfold JsArray.length in Hin. lia. }
  (* a key equal to [key] held elsewhere means the reuse branch chose it *)
  assert (∀ j : nat, view !! j = Some (Some key) → j = n) as Hkey.
  { intros j Hj. unfold selected in n.
    destruct (decide (JsArray.findIndex (λ k, k = JsOf key) (slots s) ≠ -1))
      as [Hex|Hex].
    - destruct (findIndex_hit _ _ Hex) as (i & x & Hi & Hx & HP & _).
      apply Hu with key; [done|]. unfold n.
      destruct (decide (JsArray.findIndex (λ k, k = JsOf key) (slots s) ≠ -1));
        [|done].
      rewrite Hi, Nat2Z.id. unfold view. rewrite list_lookup_fmap, Hx.
      simpl. f_equal. by apply read_defined.
    - exfalso. assert (JsArray.findIndex (λ k, k = JsOf key) (slots s) = -1)
        as Hab by (destruct (decide
          (JsArray.findIndex (λ k, k = JsOf key) (slots s) = -1)); done).
      unfold view in Hj. rewrite list_lookup_fmap in Hj.
      destruct (JsArray.items (slots s) !! j) as [y|] eqn:Hy; [|done].
      eapply findIndex_absent in Hab; [|done]. apply Hab.
      apply read_defined. by injection Hj. }
  intros i j key' Hi Hj.
  apply list_lookup_insert_Some in Hi as [(-> & Hk1 & _)|[Hni Hi]];
    apply list_lookup_insert_Some in Hj as [(-> & Hk2 & _)|[Hnj Hj]];
    simplify_eq.
  - done.
  - symmetry. by apply Hkey.
  - by apply Hkey.
  - by apply Hu with key'.
Qed.

Lemma unique_release i s :
  unique s →
  unique {| slots := JsArray.delete i (slots s);
            slotsUsage := JsArray.delete i (slotsUsage s) |}.
Proof.
  intros Hu. unfold unique in *. simpl. unfold JsArray.delete.
  case_decide; simpl; [|done]. rewrite list_fmap_insert. simpl.
  intros j1 j2 key H1 H2.
  apply list_lookup_insert_Some in H1 as [(_ & [=] & _)|[_ H1]].
  apply list_lookup_insert_Some in H2 as [(_ & [=] & _)|[_ H2]].
  by apply Hu with key.
Qed.

Lemma unique_fill s :
  unique {| slots := JsArray.fill JsUndefined (slots s);
            slotsUsage := JsArray.fill JsUndefined (slotsUsage s) |}.
Proof.
  unfold unique. simpl. rewrite fmap_replicate. simpl.
  intros i j key Hi _. by apply lookup_replicate in Hi as [[=] _].
Qed.

Lemma unique_resize (n : nat) s :
  unique s →
  unique
    {| slots :=
         JsArray.mk (resize n None (JsArray.items (slots s)))
           (JsArray.stray (slots s));
       slotsUsage :=
         JsArray.mk (resize n None (JsArray.items (slotsUsage s)))
           (JsArray.stray (slotsUsage s)) |}.
Proof.
  intros Hu. unfold unique in *. simpl. rewrite fmap_resize. simpl.
  set (view := defined <$> JsArray.items (slots s)) in *.
  assert (∀ (i : nat) key,
            resize n None view !! i = Some (Some key) →
            view !! i = Some (Some key)) as Hold.
  { intros i key Hi. pose proof (lookup_lt_Some _ _ _ Hi) as Hlt.
    rewrite length_resize in Hlt.
    destruct (decide (i < length view)%nat).
    - by rewrite lookup_resize in Hi.
    - rewrite lookup_resize_new in Hi by lia. done. }
  intros i j key Hi Hj. apply Hu with key; by apply Hold.
Qed.

Lemma reachable_unique w : reachable w → unique (extensionSettings w).
Proof.
  revert w. apply reachable_induction.
  { intros i j key Hi. simpl in Hi. by rewrite lookup_nil in Hi. }
  intros op w Hw IH.
  pose proof (reachable_synced w Hw) as Hs.
  destruct op as [arg|now key|i|].
  - destruct (step_resize arg w) as [->|[_ ->]]; [done|].
    by apply unique_resize.
  - rewrite step_acquire. by apply unique_allocate.
  - rewrite step_release. by apply unique_release.
  - rewrite step_releaseAll. by apply unique_fill.
Qed.

(** * The claims *)

(** C1: [acquireSlot] selects its slot in strict priority order. For every
    state: if [key] is held, the lowest index holding it is returned (in a
    reachable state that is the only index holding it); otherwise, if a slot is
    empty, the lowest empty index is returned; and only when neither
    applies is the result that of [findLeastRecentSlotIndex]. On a pool of
    three empty slots, acquiring "a", "b" and "c" in turn returns 0, 1
    and 2. *)
Theorem C1_acquire_priority now key w :
  (∀ i : nat,
     occupants w !! i = Some (Some key) →
     (∀ j : nat, (j < i)%nat → occupants w !! j ≠ Some (Some key)) →
     outcome (acquireSlot now key) w = Normal (Z.of_nat i))
  ∧ (reachable w →
     ∀ i : nat, occupants w !! i = Some (Some key) →
     outcome (acquireSlot now key) w = Normal (Z.of_nat i))
  ∧ (Some key ∉ occupants w →
     ∀ i : nat,
       occupants w !! i = Some None →
       (∀ j : nat, (j < i)%nat → occupants w !! j ≠ Some None) →
       outcome (acquireSlot now key) w = Normal (Z.of_nat i))
  ∧ (Some key ∉ occupants w → None ∉ occupants w →
     outcome (acquireSlot now key) w = outcome findLeastRecentSlotIndex w)
  ∧ (occupants w = [None; None; None] →
     ∀ t1 t2 t3,
       let w1 := exec (acquireSlot t1 "a") w in
       let w2 := exec (acquireSlot t2 "b") w1 in
       outcome (acquireSlot t1 "a") w = Normal 0 ∧
       outcome (acquireSlot t2 "b") w1 = Normal 1 ∧
       outcome (acquireSlot t3 "c") w2 = Normal 2).
Proof.
  split_and!.
  - intros i Hi Hleast. rewrite acquire_outcome.
    by rewrite (selected_existing key w i).
  - intros Hr i Hi. rewrite acquire_outcome.
    rewrite (selected_existing key w i); [done..|].
    intros j Hlt Hj. pose proof (reachable_unique w Hr j i key Hj Hi). lia.
  - intros Hno i Hi Hleast. rewrite acquire_outcome.
    by rewrite (selected_first_empty key w i).
  - intros Hno Hfull. rewrite acquire_outcome.
    by rewrite selected_eviction.
  - intros Hw t1 t2 t3 w1 w2.
    assert (capacity w = 3%nat) as Hcap
      by (by rewrite <- capacity_occupants, Hw).
    assert (selected "a" (extensionSettings w) = 0) as Ha.
    { apply (selected_first_empty "a" w 0); rewrite Hw; [|done|lia].
      by intros ?%list_elem_of_In; simpl in *; intuition. }
    assert (occupants w1 = [Some "a"%string; None; None]) as Hw1.
    { unfold w1. rewrite acquire_occupants; rewrite Ha, ?Hcap; [|lia].
      by rewrite Hw. }
    assert (capacity w1 = 3%nat) as Hcap1
      by (by rewrite <- capacity_occupants, Hw1).
    assert (selected "b" (extensionSettings w1) = 1) as Hb.
    { apply (selected_first_empty "b" w1 1); rewrite Hw1; [|done|].
      - by intros ?%list_elem_of_In; simpl in *; intuition.
      - intros [|j] ?; [done|lia]. }
    assert (occupants w2 = [Some "a"%string; Some "b"%string; None]) as Hw2.
    { unfold w2. rewrite acquire_occupants; rewrite Hb, ?Hcap1; [|lia].
      by rewrite Hw1. }
    assert (selected "c" (extensionSettings w2) = 2) as Hc.
    { apply (selected_first_empty "c" w2 2); rewrite Hw2; [|done|].
      - by intros ?%list_elem_of_In; simpl in *; intuition.
      - intros [|[|j]] ?; [done|done|lia]. }
    by rewrite !acquire_outcome, Ha, Hb, Hc.
Qed.

Lemma C1_acquire_priority_witness :
  outcome (acquireSlot 9 "a")
    (run [OpResize (Some 3); OpAcquire 1 "a"] initial) = Normal 0 ∧
  outcome (acquireSlot 9 "b")
    (run [OpResize (Some 3); OpAcquire 1 "a"] initial) = Normal 1.
Proof.
  split.
  - apply (proj1 (C1_acquire_priority 9 "a"
                    (run [OpResize (Some 3); OpAcquire 1 "a"] initial)) 0%nat).
    + reflexivity.
    + intros j Hj. lia.
  - apply (proj1 (proj2 (proj2 (C1_acquire_priority 9 "b"
                    (run [OpResize (Some 3); OpAcquire 1 "a"] initial))))
             ltac:(vm_compute; intros H%list_elem_of_In; simpl in H;
                   intuition congruence) 1%nat).
    + reflexivity.
    + intros [|j] Hj; [done|lia].
Defined.

(** C2: in a reachable state with capacity > 0 where [key] is not held and
    no slot is empty, [acquireSlot] returns an index whose [lastUsed] time
    is smallest among all slots, and the lowest index among those that
    share this smallest time. *)
Theorem C2_eviction_least_recent now key w :
  reachable w → (0 < capacity w)%nat →
  Some key ∉ occupants w → None ∉ occupants w →
  ∃ (i : nat) t,
    outcome (acquireSlot now key) w = Normal (Z.of_nat i) ∧
    lastUsed w !! i = Some (Some t) ∧
    (∀ (j : nat) t', lastUsed w !! j = Some (Some t') → t ≤ t') ∧
    (∀ j : nat, lastUsed w !! j = Some (Some t) → (i ≤ j)%nat).
Proof.
  intros Hr Hcap Hk Hfull.
  destruct (eviction_choice w Hr Hcap Hfull) as (n & t & Hsel & Hn & Hmin & Hlow).
  exists n, t. rewrite acquire_outcome, selected_eviction, Hsel by done.
  done.
Qed.

Lemma C2_eviction_least_recent_witness :
  reachable (run [OpResize None; OpAcquire 5 "a"; OpAcquire 5 "b"] initial) ∧
  (0 < capacity
         (run [OpResize None; OpAcquire 5 "a"; OpAcquire 5 "b"] initial))%nat ∧
  Some "c"%string
    ∉ occupants (run [OpResize None; OpAcquire 5 "a"; OpAcquire 5 "b"] initial)
  ∧
  None ∉ occupants (run [OpResize None; OpAcquire 5 "a"; OpAcquire 5 "b"] initial)
  ∧
  ∃ (i : nat) t,
    outcome (acquireSlot 9 "c")
      (run [OpResize None; OpAcquire 5 "a"; OpAcquire 5 "b"] initial)
    = Normal (Z.of_nat i) ∧
    lastUsed (run [OpResize None; OpAcquire 5 "a"; OpAcquire 5 "b"] initial)
      !! i = Some (Some t) ∧
    (∀ (j : nat) t',
       lastUsed (run [OpResize None; OpAcquire 5 "a"; OpAcquire 5 "b"] initial)
         !! j = Some (Some t') → t ≤ t') ∧
    (∀ j : nat,
       lastUsed (run [OpResize None; OpAcquire 5 "a"; OpAcquire 5 "b"] initial)
         !! j = Some (Some t) → (i ≤ j)%nat).
Proof.
  assert (reachable
            (run [OpResize None; OpAcquire 5 "a"; OpAcquire 5 "b"] initial))
    as Hr by (by exists [OpResize None; OpAcquire 5 "a"; OpAcquire 5 "b"]).
  assert (0 < capacity
                (run [OpResize None; OpAcquire 5 "a"; OpAcquire 5 "b"] initial))%nat
    as Hcap by (vm_compute; lia).
  assert (Some "c"%string
            ∉ occupants
                (run [OpResize None; OpAcquire 5 "a"; OpAcquire 5 "b"] initial))
    as Hkey
    by (vm_compute; intros H%list_elem_of_In; simpl in H; intuition congruence).
  assert (None
            ∉ occupants
                (run [OpResize None; OpAcquire 5 "a"; OpAcquire 5 "b"] initial))
    as Hfull
    by (vm_compute; intros H%list_elem_of_In; simpl in H; intuition congruence).
  split; [exact Hr|]. split; [exact Hcap|].
  split; [exact Hkey|]. split; [exact Hfull|].
  exact (C2_eviction_least_recent 9 "c" _ Hr Hcap Hkey Hfull).
Defined.

Lemma selected_in_pool key w :
  reachable w → (0 < capacity w)%nat →
  0 ≤ selected key (extensionSettings w) < Z.of_nat (capacity w).
Proof.
  intros Hr Hcap. unfold selected. case_decide as Hex.
  { destruct (findIndex_range (λ k, k = JsOf key)
                (slots (extensionSettings w))); done. }
  case_decide as Hav.
  { destruct (findIndex_range (λ k, k = JsUndefined)
                (slots (extensionSettings w))); done. }
  assert (None ∉ occupants w) as Hfull.
  { intros (j & Hj)%list_elem_of_lookup.
    assert (JsArray.findIndex (λ k, k = JsUndefined)
              (slots (extensionSettings w)) = -1) as Hab
      by (destruct (decide (JsArray.findIndex (λ k, k = JsUndefined)
                              (slots (extensionSettings w)) = -1)); done).
    unfold occupants in Hj. rewrite list_lookup_fmap in Hj.
    destruct (JsArray.items (slots (extensionSettings w)) !! j)
      as [y|] eqn:Hy; [|done].
    eapply findIndex_absent in Hab; [|done]. apply Hab.
    apply read_undefined. by injection Hj. }
  destruct (eviction_choice w Hr Hcap Hfull) as (n & t & -> & Hn & _).
  apply lookup_lt_Some in Hn.
  rewrite reachable_lastUsed_length in Hn by done. lia.
Qed.

(** C10: in a reachable state with capacity > 0, [acquireSlot] returns an
    index inside the pool for every key; the [-1] of the scan is never the
    result. *)
Theorem C10_acquire_in_range now key w :
  reachable w → (0 < capacity w)%nat →
  ∃ i, outcome (acquireSlot now key) w = Normal i ∧
       0 ≤ i < Z.of_nat (capacity w).
Proof.
  intros Hr Hcap. exists (selected key (extensionSettings w)).
  split; [apply acquire_outcome|]. by apply selected_in_pool.
Qed.

Lemma C10_acquire_in_range_witness :
  reachable (run [OpResize None; OpAcquire 5 "a"; OpAcquire 5 "b"] initial) ∧
  (0 < capacity
         (run [OpResize None; OpAcquire 5 "a"; OpAcquire 5 "b"] initial))%nat ∧
  ∃ i,
    outcome (acquireSlot 9 "c")
      (run [OpResize None; OpAcquire 5 "a"; OpAcquire 5 "b"] initial)
    = Normal i ∧
    0 ≤ i < Z.of_nat
              (capacity
                 (run [OpResize None; OpAcquire 5 "a"; OpAcquire 5 "b"] initial)).
Proof.
  assert (reachable
            (run [OpResize None; OpAcquire 5 "a"; OpAcquire 5 "b"] initial))
    as Hr by (by exists [OpResize None; OpAcquire 5 "a"; OpAcquire 5 "b"]).
  assert (0 < capacity
                (run [OpResize None; OpAcquire 5 "a"; OpAcquire 5 "b"] initial))%nat
    as Hcap by (vm_compute; lia).
  split; [exact Hr|]. split; [exact Hcap|].
  exact (C10_acquire_in_range 9 "c" _ Hr Hcap).
Defined.

(** ** Acquiring the same key again *)

Lemma selected_items_ext key s s' :
  JsArray.items (slots s') = JsArray.items (slots s) →
  JsArray.items (slotsUsage s') = JsArray.items (slotsUsage s) →
  selected key s' = selected key s.
Proof.
  intros Hs Hu. unfold selected, JsArray.findIndex, JsArray.forEach.
  by rewrite Hs, Hu.
Qed.

Lemma selected_nothing_before key s (j : nat) y :
  JsArray.items (slots s) !! j = Some y →
  (j < Z.to_nat (selected key s))%nat →
  JsArray.read y ≠ JsOf key.
Proof.
  intros Hj Hlt. unfold selected in Hlt.
  destruct (decide (JsArray.findIndex (λ k, k = JsOf key) (slots s) ≠ -1))
    as [Hex|Hex].
  - destruct (findIndex_hit _ _ Hex) as (i & x & Hi & _ & _ & Hleast).
    rewrite Hi, Nat2Z.id in Hlt. by apply (Hleast j).
  - assert (JsArray.findIndex (λ k, k = JsOf key) (slots s) = -1) as Hab
      by (destruct (decide
            (JsArray.findIndex (λ k, k = JsOf key) (slots s) = -1)); done).
    eapply findIndex_absent in Hab; done.
Qed.

Lemma set_lookup_same {A} i (v : JsVal A) a :
  0 ≤ i → JsArray.items (JsArray.set i v a) !! Z.to_nat i = Some (Some v).
Proof.
  intros Hi. pose proof (get_own_set i v a) as Hg.
  unfold JsArray.get_own in Hg. case_decide; [|lia].
  destruct (JsArray.items (JsArray.set i v a) !! Z.to_nat i) as [[x|]|];
    simpl in Hg; congruence.
Qed.

Lemma set_lookup_before {A} i (v : JsVal A) a (j : nat) x :
  (j < Z.to_nat i)%nat →
  JsArray.items (JsArray.set i v a) !! j = Some x →
  JsArray.items a !! j = Some x ∨ x = None.
Proof.
  intros Hlt. unfold JsArray.set, JsArray.length.
  repeat case_decide; simpl; try lia.
  - rewrite list_lookup_insert_ne by lia. by left.
  - intros [Hj|[Hlen Hj]]%lookup_app_Some; [by left|right].
    apply lookup_app_Some in Hj as [Hj|[Hge Hj]].
    + by apply lookup_replicate in Hj as [-> _].
    + rewrite length_replicate in Hge. lia.
Qed.

Lemma selected_again key now s :
  selected key
    {| slots := JsArray.set (selected key s) (JsOf key) (slots s);
       slotsUsage := JsArray.set (selected key s) (JsOf now) (slotsUsage s) |}
  = selected key s.
Proof.
  destruct (decide (0 ≤ selected key s)) as [Hpos|Hneg].
  - set (s' := {| slots := _ |}).
    assert (JsArray.findIndex (λ k, k = JsOf key) (slots s')
            = Z.of_nat (Z.to_nat (selected key s))) as Hf.
    { eapply findIndex_first.
      - by apply set_lookup_same.
      - done.
      - intros j y Hj Hlt.
        destruct (set_lookup_before _ _ _ _ _ Hlt Hj) as [Hold| ->]; [|done].
        by eapply selected_nothing_before. }
    unfold selected at 1. rewrite Hf. case_decide; lia.
  - apply selected_items_ext; simpl; apply set_items_negative; lia.
Qed.

(** C8: every [acquireSlot] returns normally and records the current time
    under the selected index of [slotsUsage], reuse of an owned slot
    included; acquiring the same key again right away returns the same
    index. In a reachable state with capacity > 0 the selected index is a
    slot of the pool: [lastUsed] of that slot becomes the current time,
    no other timestamp changes, and the second call returns that slot. *)
Theorem C8_acquire_stamps_and_repeats now now' key w :
  (∃ i,
     outcome (acquireSlot now key) w = Normal i ∧
     JsArray.get_own
       (slotsUsage (extensionSettings (exec (acquireSlot now key) w))) i
     = Some (JsOf now) ∧
     (0 ≤ i →
      lastUsed (exec (acquireSlot now key) w) !! Z.to_nat i
      = Some (Some now)) ∧
     outcome (acquireSlot now' key) (exec (acquireSlot now key) w) = Normal i)
  ∧
  (reachable w → (0 < capacity w)%nat →
   ∃ i : nat,
     (i < capacity w)%nat ∧
     outcome (acquireSlot now key) w = Normal (Z.of_nat i) ∧
     lastUsed (exec (acquireSlot now key) w) !! i = Some (Some now) ∧
     lastUsed (exec (acquireSlot now key) w) = <[i := Some now]> (lastUsed w) ∧
     occupants (exec (acquireSlot now key) w) !! i = Some (Some key) ∧
     outcome (acquireSlot now' key) (exec (acquireSlot now key) w)
     = Normal (Z.of_nat i)).
Proof.
  split.
  - exists (selected key (extensionSettings w)).
    change (exec (acquireSlot now key) w) with (step (OpAcquire now key) w).
    rewrite !acquire_outcome, step_acquire. simpl. split_and!.
    + done.
    + apply get_own_set.
    + intros Hi. rewrite lastUsed_refreshed, list_lookup_fmap. simpl.
      by rewrite set_lookup_same.
    + f_equal. apply selected_again.
  - intros Hr Hcap.
    pose proof (selected_in_pool key w Hr Hcap) as Hin.
    exists (Z.to_nat (selected key (extensionSettings w))).
    assert (lastUsed (exec (acquireSlot now key) w)
            = <[Z.to_nat (selected key (extensionSettings w)) := Some now]>
                (lastUsed w)) as Hlast.
    { apply acquire_lastUsed. by rewrite reachable_lastUsed_length. }
    split_and!.
    + lia.
    + rewrite acquire_outcome. f_equal. lia.
    + rewrite Hlast. apply list_lookup_insert_eq.
      rewrite reachable_lastUsed_length by done. lia.
    + done.
    + rewrite acquire_occupants by done. apply list_lookup_insert_eq.
      rewrite capacity_occupants. lia.
    + rewrite acquire_outcome.
      change (exec (acquireSlot now key) w) with (step (OpAcquire now key) w).
      rewrite step_acquire. simpl. rewrite selected_again. f_equal. lia.
Qed.

Lemma C8_acquire_stamps_and_repeats_witness :
  reachable (run [OpResize None; OpAcquire 1 "a"; OpAcquire 2 "b"] initial) ∧
  (0 < capacity
         (run [OpResize None; OpAcquire 1 "a"; OpAcquire 2 "b"] initial))%nat ∧
  ∃ i : nat,
    (i < capacity
           (run [OpResize None; OpAcquire 1 "a"; OpAcquire 2 "b"] initial))%nat ∧
    outcome (acquireSlot 5 "b")
      (run [OpResize None; OpAcquire 1 "a"; OpAcquire 2 "b"] initial)
    = Normal (Z.of_nat i) ∧
    lastUsed
      (exec (acquireSlot 5 "b")
         (run [OpResize None; OpAcquire 1 "a"; OpAcquire 2 "b"] initial))
      !! i = Some (Some 5) ∧
    lastUsed
      (exec (acquireSlot 5 "b")
         (run [OpResize None; OpAcquire 1 "a"; OpAcquire 2 "b"] initial))
    = <[i := Some 5]>
        (lastUsed
           (run [OpResize None; OpAcquire 1 "a"; OpAcquire 2 "b"] initial)) ∧
    occupants
      (exec (acquireSlot 5 "b")
         (run [OpResize None; OpAcquire 1 "a"; OpAcquire 2 "b"] initial))
      !! i = Some (Some "b"%string) ∧
    outcome (acquireSlot 6 "b")
      (exec (acquireSlot 5 "b")
         (run [OpResize None; OpAcquire 1 "a"; OpAcquire 2 "b"] initial))
    = Normal (Z.of_nat i).
Proof.
  assert (reachable
            (run [OpResize None; OpAcquire 1 "a"; OpAcquire 2 "b"] initial))
    as Hr by (by exists [OpResize None; OpAcquire 1 "a"; OpAcquire 2 "b"]).
  assert (0 < capacity
                (run [OpResize None; OpAcquire 1 "a"; OpAcquire 2 "b"] initial))%nat
    as Hcap by (vm_compute; lia).
  split; [exact Hr|]. split; [exact Hcap|].
  exact (proj2 (C8_acquire_stamps_and_repeats 5 6 "b" _) Hr Hcap).
Defined.

(** C4 (amended): [acquireSlot] validates nothing and raises no
    invalid-argument error. In a reachable state with capacity > 0 it
    accepts every key, the empty string included: it returns an index
    inside the pool, stores the key and the current time there, and
    leaves the other slots and the capacity as they were. *)
Theorem C4_acquire_accepts_any_key now key w :
  reachable w → (0 < capacity w)%nat →
  ∃ i : nat,
    (i < capacity w)%nat ∧
    outcome (acquireSlot now key) w = Normal (Z.of_nat i) ∧
    occupants (exec (acquireSlot now key) w) = <[i := Some key]> (occupants w) ∧
    lastUsed (exec (acquireSlot now key) w) = <[i := Some now]> (lastUsed w) ∧
    capacity (exec (acquireSlot now key) w) = capacity w.
Proof.
  intros Hr Hcap.
  pose proof (selected_in_pool key w Hr Hcap) as Hrange.
  set (i := selected key (extensionSettings w)) in *.
  assert (selected key (extensionSettings w) = i) as Hi by done.
  exists (Z.to_nat i). split_and!.
  - lia.
  - rewrite acquire_outcome, Hi. f_equal. lia.
  - rewrite acquire_occupants by (rewrite Hi; lia). by rewrite Hi.
  - rewrite acquire_lastUsed; [by rewrite Hi|].
    rewrite reachable_lastUsed_length by done. rewrite Hi. lia.
  - apply acquire_capacity. rewrite Hi. lia.
Qed.

Lemma C4_acquire_accepts_any_key_witness :
  reachable (run [OpResize None] initial) ∧
  (0 < capacity (run [OpResize None] initial))%nat ∧
  ∃ i : nat,
    (i < capacity (run [OpResize None] initial))%nat ∧
    outcome (acquireSlot 7 "") (run [OpResize None] initial)
    = Normal (Z.of_nat i) ∧
    occupants (exec (acquireSlot 7 "") (run [OpResize None] initial))
    = <[i := Some ""%string]> (occupants (run [OpResize None] initial)) ∧
    lastUsed (exec (acquireSlot 7 "") (run [OpResize None] initial))
    = <[i := Some 7]> (lastUsed (run [OpResize None] initial)) ∧
    capacity (exec (acquireSlot 7 "") (run [OpResize None] initial))
    = capacity (run [OpResize None] initial).
Proof.
  assert (reachable (run [OpResize None] initial)) as Hr
    by (by exists [OpResize None]).
  assert (0 < capacity (run [OpResize None] initial))%nat as Hcap
    by (vm_compute; lia).
  split; [exact Hr|]. split; [exact Hcap|].
  exact (C4_acquire_accepts_any_key 7 "" _ Hr Hcap).
Defined.

(** C4, as stated, fails: on the default pool of two empty slots
    [acquireSlot ""] returns slot 0 and occupies it, and on a pool of
    capacity 0 [acquireSlot "a"] returns [-1]; neither raises an error. *)
Lemma C4_counterexample :
  (outcome (acquireSlot 7 "") (run [OpResize None] initial) = Normal 0 ∧
   (∀ e, outcome (acquireSlot 7 "") (run [OpResize None] initial) ≠ Throw e) ∧
   occupants (run [OpResize None] initial) = [None; None] ∧
   occupants (exec (acquireSlot 7 "") (run [OpResize None] initial))
   = [Some ""%string; None]) ∧
  (capacity (run [OpResize (Some 0)] initial) = 0%nat ∧
   outcome (acquireSlot 7 "a") (run [OpResize (Some 0)] initial) = Normal (-1) ∧
   (∀ e, outcome (acquireSlot 7 "a") (run [OpResize (Some 0)] initial)
         ≠ Throw e)).
Proof. by vm_compute. Qed.

(** ** Counting used slots *)

Lemma count_used_from (n : nat) (names : list (JsVal string)) :
  foldl (λ usedSlots name,
           if typeof_is_string name then S usedSlots else usedSlots) n names
  = (n + length (filter (λ name, typeof_is_string name) names))%nat.
Proof.
  revert n. induction names as [|[|s] names IH]; intros n; cbn [foldl].
  - simpl. lia.
  - rewrite IH. rewrite filter_cons_False by (by intros ?). simpl. lia.
  - rewrite IH. rewrite filter_cons_True by done. simpl. lia.
Qed.

Lemma count_used_items (items : list (option (JsVal string))) :
  length (filter (λ name, typeof_is_string name) (omap id items))
  = length (filter is_Some (defined <$> items)).
Proof.
  induction items as [|[[|s]|] items IH];
    cbn [omap list_omap fmap list_fmap id defined]; [done|..].
  - rewrite filter_cons_False by (by intros ?).
    rewrite (filter_cons_False is_Some) by (by intros [? ?]). done.
  - rewrite filter_cons_True by done.
    rewrite (filter_cons_True is_Some) by (by eexists). simpl. by rewrite IH.
  - rewrite (filter_cons_False is_Some) by (by intros [? ?]). done.
Qed.

(** The displayed count of used slots: the occupied slots, plus the stray
    properties of [slots] that hold a string. *)
Lemma usedCount_formula w :
  usedCount w
  = Some (length (filter is_Some (occupants w))
          + length (filter (λ name, typeof_is_string name)
                      (map_to_list
                         (JsArray.stray (slots (extensionSettings w)))).*2))%nat.
Proof.
  unfold usedCount, exec. rewrite updateSlotsAvailability_run. simpl.
  f_equal. unfold count_used, JsArray.values.
  rewrite count_used_from, filter_app, length_app, count_used_items. done.
Qed.

(** C5 (amended): [updateSlotsAvailability] changes nothing in the
    settings; the count it displays as available is the capacity
    ([slots.length]), not the capacity minus the used count; and, when
    [slots] carries no stray property, the count it displays as used is
    the number of non-empty occupant entries. *)
Theorem C5_usage_counts w :
  JsArray.stray (slots (extensionSettings w)) = ∅ →
  outcome updateSlotsAvailability w = Normal tt ∧
  extensionSettings (exec updateSlotsAvailability w) = extensionSettings w ∧
  usedCount w = Some (length (filter is_Some (occupants w))) ∧
  availableCount w = Some (capacity w).
Proof.
  intros Hstray. split_and!; try done.
  rewrite usedCount_formula, Hstray, map_to_list_empty. simpl.
  f_equal. lia.
Qed.

Lemma C5_usage_counts_witness :
  JsArray.stray
    (slots (extensionSettings (run [OpResize None; OpAcquire 1 "a"] initial)))
  = ∅ ∧
  outcome updateSlotsAvailability (run [OpResize None; OpAcquire 1 "a"] initial)
  = Normal tt ∧
  extensionSettings
    (exec updateSlotsAvailability
       (run [OpResize None; OpAcquire 1 "a"] initial))
  = extensionSettings (run [OpResize None; OpAcquire 1 "a"] initial) ∧
  usedCount (run [OpResize None; OpAcquire 1 "a"] initial)
  = Some (length (filter is_Some
                    (occupants (run [OpResize None; OpAcquire 1 "a"] initial)))) ∧
  availableCount (run [OpResize None; OpAcquire 1 "a"] initial)
  = Some (capacity (run [OpResize None; OpAcquire 1 "a"] initial)).
Proof.
  split; [reflexivity|].
  apply (C5_usage_counts (run [OpResize None; OpAcquire 1 "a"] initial)).
  reflexivity.
Defined.

(** C5, as stated, fails: with one of two slots occupied the displayed
    available count is 2, the capacity, while capacity minus used is 1. *)
Lemma C5_counterexample :
  capacity (run [OpResize None; OpAcquire 1 "a"] initial) = 2%nat ∧
  usedCount (run [OpResize None; OpAcquire 1 "a"] initial) = Some 1%nat ∧
  availableCount (run [OpResize None; OpAcquire 1 "a"] initial) = Some 2%nat ∧
  availableCount (run [OpResize None; OpAcquire 1 "a"] initial)
  ≠ (λ used, capacity (run [OpResize None; OpAcquire 1 "a"] initial) - used)%nat
      <$> usedCount (run [OpResize None; OpAcquire 1 "a"] initial).
Proof. by vm_compute. Qed.

(** ** Releasing *)

Lemma release_outcome index w : outcome (releaseSlot index) w = Normal tt.
Proof. reflexivity. Qed.

Lemma release_capacity index w :
  capacity (exec (releaseSlot index) w) = capacity w.
Proof.
  change (exec (releaseSlot index) w) with (step (OpRelease index) w).
  rewrite step_release, capacity_refreshed. simpl.
  unfold JsArray.delete, JsArray.length.
  case_decide; simpl; [|done]. by rewrite length_insert.
Qed.

Lemma release_occupants index w :
  occupants (exec (releaseSlot index) w)
  = if decide (0 ≤ index) then <[Z.to_nat index := None]> (occupants w)
    else occupants w.
Proof.
  change (exec (releaseSlot index) w) with (step (OpRelease index) w).
  rewrite step_release, occupants_refreshed. simpl. unfold JsArray.delete.
  case_decide; simpl; [|done]. by rewrite list_fmap_insert.
Qed.

Lemma release_lastUsed index w :
  lastUsed (exec (releaseSlot index) w)
  = if decide (0 ≤ index) then <[Z.to_nat index := None]> (lastUsed w)
    else lastUsed w.
Proof.
  change (exec (releaseSlot index) w) with (step (OpRelease index) w).
  rewrite step_release, lastUsed_refreshed. simpl. unfold JsArray.delete.
  case_decide; simpl; [|done]. by rewrite list_fmap_insert.
Qed.

(** C6 (amended): [releaseSlot] checks no range and raises no error. For
    every index outside [0, capacity), the capacity itself and [-1]
    included, it returns normally, and in a reachable state no occupant,
    no timestamp and not the capacity changes. *)
Theorem C6_release_out_of_range index w :
  reachable w → ¬ (0 ≤ index < Z.of_nat (capacity w)) →
  outcome (releaseSlot index) w = Normal tt ∧
  occupants (exec (releaseSlot index) w) = occupants w ∧
  lastUsed (exec (releaseSlot index) w) = lastUsed w ∧
  capacity (exec (releaseSlot index) w) = capacity w.
Proof.
  intros Hr Hout. split_and!.
  - apply release_outcome.
  - rewrite release_occupants. case_decide; [|done].
    apply list_insert_ge. rewrite capacity_occupants. lia.
  - rewrite release_lastUsed. case_decide; [|done].
    apply list_insert_ge. rewrite reachable_lastUsed_length by done. lia.
  - apply release_capacity.
Qed.

Lemma C6_release_out_of_range_witness :
  reachable (run [OpResize None; OpAcquire 1 "a"] initial) ∧
  ¬ (0 ≤ 2 < Z.of_nat (capacity (run [OpResize None; OpAcquire 1 "a"] initial)))
  ∧
  (outcome (releaseSlot 2) (run [OpResize None; OpAcquire 1 "a"] initial)
   = Normal tt ∧
   occupants (exec (releaseSlot 2)
                (run [OpResize None; OpAcquire 1 "a"] initial))
   = occupants (run [OpResize None; OpAcquire 1 "a"] initial) ∧
   lastUsed (exec (releaseSlot 2)
               (run [OpResize None; OpAcquire 1 "a"] initial))
   = lastUsed (run [OpResize None; OpAcquire 1 "a"] initial) ∧
   capacity (exec (releaseSlot 2)
               (run [OpResize None; OpAcquire 1 "a"] initial))
   = capacity (run [OpResize None; OpAcquire 1 "a"] initial)).
Proof.
  assert (reachable (run [OpResize None; OpAcquire 1 "a"] initial)) as Hr
    by (by exists [OpResize None; OpAcquire 1 "a"]).
  assert (¬ (0 ≤ 2 < Z.of_nat
               (capacity (run [OpResize None; OpAcquire 1 "a"] initial))))
    as Hout by (vm_compute; intros [_ H]; discriminate H).
  split; [exact Hr|]. split; [exact Hout|].
  exact (C6_release_out_of_range 2 _ Hr Hout).
Defined.

(** C6, as stated, fails: on a pool of capacity 2, releasing index 2 (the
    capacity) and index [-1] both return normally; no error is raised. *)
Lemma C6_counterexample :
  capacity (run [OpResize None; OpAcquire 1 "a"] initial) = 2%nat ∧
  outcome (releaseSlot 2) (run [OpResize None; OpAcquire 1 "a"] initial)
  = Normal tt ∧
  outcome (releaseSlot (-1)) (run [OpResize None; OpAcquire 1 "a"] initial)
  = Normal tt ∧
  (∀ e, outcome (releaseSlot 2) (run [OpResize None; OpAcquire 1 "a"] initial)
        ≠ Throw e) ∧
  (∀ e, outcome (releaseSlot (-1))
          (run [OpResize None; OpAcquire 1 "a"] initial) ≠ Throw e).
Proof. by vm_compute. Qed.

(** Releasing a slot that [releaseSlots] filled with [undefined] turns the
    entry into a hole; the pool reads both as an empty slot. *)
Lemma release_after_releaseAll_leaves_hole :
  JsArray.items
    (slots (extensionSettings (run [OpResize None; OpReleaseAll] initial)))
  = [Some JsUndefined; Some JsUndefined] ∧
  JsArray.items
    (slots (extensionSettings
              (run [OpResize None; OpReleaseAll; OpRelease 0] initial)))
  = [None; Some JsUndefined] ∧
  occupants (run [OpResize None; OpReleaseAll; OpRelease 0] initial)
  = occupants (run [OpResize None; OpReleaseAll] initial).
Proof. by vm_compute. Qed.

(** C9: in a reachable state, releasing an in-range slot that is already
    empty returns normally and leaves the occupants, the timestamps, the
    capacity and the displayed used count as they were; and releasing any
    index twice leaves exactly the state that releasing it once leaves. *)
Theorem C9_release_idempotent (i : nat) w :
  reachable w → (i < capacity w)%nat →
  (occupants w !! i = Some None →
   outcome (releaseSlot (Z.of_nat i)) w = Normal tt ∧
   occupants (exec (releaseSlot (Z.of_nat i)) w) = occupants w ∧
   lastUsed (exec (releaseSlot (Z.of_nat i)) w) = lastUsed w ∧
   capacity (exec (releaseSlot (Z.of_nat i)) w) = capacity w ∧
   usedCount (exec (releaseSlot (Z.of_nat i)) w) = usedCount w) ∧
  outcome (releaseSlot (Z.of_nat i)) (exec (releaseSlot (Z.of_nat i)) w)
  = Normal tt ∧
  exec (releaseSlot (Z.of_nat i)) (exec (releaseSlot (Z.of_nat i)) w)
  = exec (releaseSlot (Z.of_nat i)) w.
Proof.
  intros Hr Hi. split; [|split].
  - intros Hempty.
    assert (occupants (exec (releaseSlot (Z.of_nat i)) w) = occupants w)
      as Hocc.
    { rewrite release_occupants. case_decide; [|lia].
      rewrite Nat2Z.id. by apply list_insert_id. }
    split_and!.
    + apply release_outcome.
    + done.
    + rewrite release_lastUsed. case_decide; [|lia].
      rewrite Nat2Z.id. apply list_insert_id.
      by apply (reachable_stamped w i Hr).
    + apply release_capacity.
    + rewrite !usedCount_formula, Hocc.
      change (exec (releaseSlot (Z.of_nat i)) w)
        with (step (OpRelease (Z.of_nat i)) w).
      rewrite step_release. simpl. unfold JsArray.delete.
      by case_decide; [|lia].
  - apply release_outcome.
  - change (exec (releaseSlot (Z.of_nat i))
              (exec (releaseSlot (Z.of_nat i)) w))
      with (step (OpRelease (Z.of_nat i)) (step (OpRelease (Z.of_nat i)) w)).
    change (exec (releaseSlot (Z.of_nat i)) w)
      with (step (OpRelease (Z.of_nat i)) w).
    rewrite !step_release. simpl. by rewrite !array_delete_twice.
Qed.

Lemma C9_release_idempotent_witness :
  reachable (run [OpResize None; OpAcquire 1 "a"; OpReleaseAll] initial) ∧
  (0 < capacity (run [OpResize None; OpAcquire 1 "a"; OpReleaseAll] initial))%nat
  ∧
  occupants (run [OpResize None; OpAcquire 1 "a"; OpReleaseAll] initial)
    !! 0%nat = Some None ∧
  occupants
    (exec (releaseSlot 0)
       (run [OpResize None; OpAcquire 1 "a"; OpReleaseAll] initial))
  = occupants (run [OpResize None; OpAcquire 1 "a"; OpReleaseAll] initial) ∧
  exec (releaseSlot 0)
    (exec (releaseSlot 0)
       (run [OpResize None; OpAcquire 1 "a"; OpReleaseAll] initial))
  = exec (releaseSlot 0)
      (run [OpResize None; OpAcquire 1 "a"; OpReleaseAll] initial).
Proof.
  assert (reachable (run [OpResize None; OpAcquire 1 "a"; OpReleaseAll] initial))
    as Hr by (by exists [OpResize None; OpAcquire 1 "a"; OpReleaseAll]).
  assert (0 < capacity
                (run [OpResize None; OpAcquire 1 "a"; OpReleaseAll] initial))%nat
    as Hcap by (vm_compute; lia).
  assert (occupants (run [OpResize None; OpAcquire 1 "a"; OpReleaseAll] initial)
            !! 0%nat = Some None) as Hempty by reflexivity.
  pose proof (C9_release_idempotent 0 _ Hr Hcap) as [Hsame [_ Htwice]].
  split; [exact Hr|]. split; [exact Hcap|]. split; [exact Hempty|].
  exact (conj (proj1 (proj2 (Hsame Hempty))) Htwice).
Defined.

(** ** Resizing *)

Lemma resize_outcome n w :
  0 ≤ n ≤ JsArray.max_length →
  outcome (initializeSlots (Some n)) w = Normal tt.
Proof. intros Hn. unfold outcome. by rewrite initializeSlots_ok. Qed.

Lemma resize_occupants n w :
  0 ≤ n ≤ JsArray.max_length →
  occupants (exec (initializeSlots (Some n)) w)
  = resize (Z.to_nat n) None (occupants w).
Proof.
  intros Hn. unfold exec. rewrite initializeSlots_ok by done.
  simpl. rewrite occupants_refreshed. simpl. by rewrite fmap_resize.
Qed.

Lemma resize_lastUsed n w :
  0 ≤ n ≤ JsArray.max_length →
  lastUsed (exec (initializeSlots (Some n)) w)
  = resize (Z.to_nat n) None (lastUsed w).
Proof.
  intros Hn. unfold exec. rewrite initializeSlots_ok by done.
  simpl. rewrite lastUsed_refreshed. simpl. by rewrite fmap_resize.
Qed.

(** C7 (amended): for 0 ≤ n ≤ 2^32 - 1, [initializeSlots n] returns
    normally and sets the capacity to [n]; occupants and timestamps become
    the old ones cut or padded with empty entries to length [n]. In a
    reachable state every retained index keeps its occupant and its
    timestamp and every new index is empty without timestamp; nothing is
    left at indices from [n] on. Resizing [a, b, c] to 2 gives [a, b], and
    resizing [a, b] to 4 gives [a, b, empty, empty]. *)
Theorem C7_resize_preserves_prefix n w :
  0 ≤ n ≤ JsArray.max_length →
  let w' := exec (initializeSlots (Some n)) w in
  outcome (initializeSlots (Some n)) w = Normal tt ∧
  capacity w' = Z.to_nat n ∧
  length (lastUsed w') = Z.to_nat n ∧
  occupants w' = resize (Z.to_nat n) None (occupants w) ∧
  lastUsed w' = resize (Z.to_nat n) None (lastUsed w) ∧
  (reachable w →
   ∀ i : nat, (i < Z.to_nat n)%nat → (i < capacity w)%nat →
     occupants w' !! i = occupants w !! i ∧
     lastUsed w' !! i = lastUsed w !! i) ∧
  (reachable w →
   ∀ i : nat, (capacity w ≤ i < Z.to_nat n)%nat →
     occupants w' !! i = Some None ∧ lastUsed w' !! i = Some None) ∧
  (∀ i : nat, (Z.to_nat n ≤ i)%nat →
     occupants w' !! i = None ∧ lastUsed w' !! i = None) ∧
  (∀ a b c, n = 2 → occupants w = [Some a; Some b; Some c] →
     occupants w' = [Some a; Some b]) ∧
  (∀ a b, n = 4 → occupants w = [Some a; Some b] →
     occupants w' = [Some a; Some b; None; None]).
Proof.
  intros Hn w'. unfold w'.
  rewrite resize_occupants, resize_lastUsed by done.
  split_and!.
  - by apply resize_outcome.
  - by rewrite <- capacity_occupants, resize_occupants, length_resize.
  - by rewrite length_resize.
  - done.
  - done.
  - intros Hr i Hin Hic. split.
    + apply lookup_resize; [done|]. by rewrite capacity_occupants.
    + apply lookup_resize; [done|].
      by rewrite reachable_lastUsed_length.
  - intros Hr i [Hci Hin]. split.
    + apply lookup_resize_new; [|done]. by rewrite capacity_occupants.
    + apply lookup_resize_new; [|done].
      by rewrite reachable_lastUsed_length.
  - intros i Hi. split; by apply lookup_resize_old.
  - by intros a b c -> ->.
  - by intros a b -> ->.
Qed.

Lemma C7_resize_preserves_prefix_witness :
  0 ≤ 2 ≤ JsArray.max_length ∧
  outcome (initializeSlots (Some 2))
    (run [OpResize (Some 3); OpAcquire 1 "a"; OpAcquire 2 "b"; OpAcquire 3 "c"]
       initial) = Normal tt ∧
  capacity
    (exec (initializeSlots (Some 2))
       (run [OpResize (Some 3); OpAcquire 1 "a"; OpAcquire 2 "b";
             OpAcquire 3 "c"] initial)) = Z.to_nat 2.
Proof.
  assert (0 ≤ 2 ≤ JsArray.max_length) as Hn by (by vm_compute).
  split; [exact Hn|].
  pose proof (C7_resize_preserves_prefix 2
    (run [OpResize (Some 3); OpAcquire 1 "a"; OpAcquire 2 "b"; OpAcquire 3 "c"]
       initial) Hn) as H.
  exact (conj (proj1 H) (proj1 (proj2 H))).
Defined.

(** C7, as stated, fails for large [n]: the array length setter refuses
    2^32 with a [RangeError], and the capacity stays what it was. *)
Lemma C7_counterexample :
  0 ≤ 4294967296 ∧
  outcome (initializeSlots (Some 4294967296)) (run [OpResize None] initial)
  = Throw RangeError ∧
  capacity (exec (initializeSlots (Some 4294967296))
              (run [OpResize None] initial)) = 2%nat ∧
  Z.of_nat (capacity (exec (initializeSlots (Some 4294967296))
                        (run [OpResize None] initial))) ≠ 4294967296.
Proof. by vm_compute. Qed.

(** C3 (the code departs from it): after [initializeSlots 0],
    [acquireSlot "a"] finds no slot, takes the [-1] of the scan for an
    index and stores the key under the stray property [-1]; the capacity
    is still 0, no slot is occupied, and the displayed used count is 1. *)
Theorem C3_used_exceeds_capacity :
  outcome (acquireSlot 1 "a") (run [OpResize (Some 0)] initial) = Normal (-1) ∧
  capacity (run [OpResize (Some 0); OpAcquire 1 "a"] initial) = 0%nat ∧
  occupants (run [OpResize (Some 0); OpAcquire 1 "a"] initial) = [] ∧
  JsArray.get_own
    (slots (extensionSettings
              (run [OpResize (Some 0); OpAcquire 1 "a"] initial))) (-1)
  = Some (JsOf "a"%string) ∧
  usedCount (run [OpResize (Some 0); OpAcquire 1 "a"] initial) = Some 1%nat.
Proof. by vm_compute. Qed.

(** * Further properties of the pool *)

(** X1, no duplicates: in every state reachable from the empty pool, a key is
    held by at most one slot index. *)
Theorem reachable_no_duplicates w (i j : nat) key :
  reachable w →
  occupants w !! i = Some (Some key) →
  occupants w !! j = Some (Some key) →
  i = j.
Proof. intros Hr. apply (reachable_unique w Hr). Qed.

Lemma reachable_no_duplicates_witness :
  reachable (run [OpResize None; OpAcquire 1 "a"; OpAcquire 2 "b"] initial) ∧
  occupants (run [OpResize None; OpAcquire 1 "a"; OpAcquire 2 "b"] initial)
    !! 1%nat = Some (Some "b"%string) ∧
  1%nat = 1%nat.
Proof.
  assert (reachable
            (run [OpResize None; OpAcquire 1 "a"; OpAcquire 2 "b"] initial))
    as Hr by (by exists [OpResize None; OpAcquire 1 "a"; OpAcquire 2 "b"]).
  assert (occupants
            (run [OpResize None; OpAcquire 1 "a"; OpAcquire 2 "b"] initial)
            !! 1%nat = Some (Some "b"%string)) as Hb by reflexivity.
  split; [exact Hr|]. split; [exact Hb|].
  exact (reachable_no_duplicates _ 1 1 "b" Hr Hb Hb).
Defined.

(** X2, the data model: in every reachable state [occupants] and [lastUsed]
    both have [capacity] entries, and a slot holds a key exactly when it
    has a timestamp. *)
Theorem reachable_data_model w :
  reachable w →
  length (occupants w) = capacity w ∧
  length (lastUsed w) = capacity w ∧
  ∀ i : nat,
    (occupants w !! i = Some None ↔ lastUsed w !! i = Some None) ∧
    ((∃ key, occupants w !! i = Some (Some key)) ↔
     (∃ t, lastUsed w !! i = Some (Some t))).
Proof.
  intros Hr. split; [apply capacity_occupants|].
  split; [by apply reachable_lastUsed_length|].
  intros i. destruct (reachable_stamped w i Hr) as [Hempty Hheld].
  split; [done|]. split.
  - intros [key Hk]. by apply (Hheld key).
  - intros [t Ht]. destruct (occupants w !! i) as [[key|]|] eqn:Ho.
    + by exists key.
    + destruct Hempty as [Hempty _]. rewrite Hempty in Ht; done.
    + apply lookup_ge_None in Ho. apply lookup_lt_Some in Ht.
      rewrite capacity_occupants in Ho.
      rewrite reachable_lastUsed_length in Ht by done. lia.
Qed.

Lemma reachable_data_model_witness :
  reachable (run [OpResize None; OpAcquire 1 "a"] initial) ∧
  length (occupants (run [OpResize None; OpAcquire 1 "a"] initial))
  = capacity (run [OpResize None; OpAcquire 1 "a"] initial) ∧
  length (lastUsed (run [OpResize None; OpAcquire 1 "a"] initial))
  = capacity (run [OpResize None; OpAcquire 1 "a"] initial).
Proof.
  assert (reachable (run [OpResize None; OpAcquire 1 "a"] initial)) as Hr
    by (by exists [OpResize None; OpAcquire 1 "a"]).
  split; [exact Hr|].
  pose proof (reachable_data_model _ Hr) as H.
  exact (conj (proj1 H) (proj1 (proj2 H))).
Defined.

(** X3, used count within capacity: along every sequence of operations from
    the empty pool in which [acquireSlot] only runs while the capacity is
    positive, [slots] never gets a stray property, and the displayed used
    count is the number of occupied slots, at most the capacity. *)
Theorem guarded_used_within_capacity ops :
  acquires_guarded ops initial →
  JsArray.stray (slots (extensionSettings (run ops initial))) = ∅ ∧
  usedCount (run ops initial)
  = Some (length (filter is_Some (occupants (run ops initial)))) ∧
  (length (filter is_Some (occupants (run ops initial)))
   ≤ capacity (run ops initial))%nat.
Proof.
  intros Hg.
  assert (JsArray.stray (slots (extensionSettings (run ops initial))) = ∅)
    as Hstray.
  { assert (reachable initial) as Hr by apply reachable_initial.
    assert (JsArray.stray (slots (extensionSettings initial)) = ∅) as H0
      by done.
    revert Hg Hr H0. generalize initial.
    induction ops as [|op ops IH]; intros w Hg Hr Hw; [done|].
    destruct Hg as [Hop Hg]. apply (IH (step op w) Hg).
    { by apply reachable_step. }
    destruct op as [arg|now key|i|].
    - by destruct (step_resize arg w) as [->|[_ ->]].
    - rewrite step_acquire. simpl.
      pose proof (selected_in_pool key w Hr Hop) as Hin.
      unfold JsArray.set. by repeat case_decide; try lia.
    - rewrite step_release. simpl. unfold JsArray.delete.
      case_decide; simpl; [done|]. rewrite Hw. apply delete_empty.
    - by rewrite step_releaseAll. }
  split; [done|]. split.
  - rewrite usedCount_formula, Hstray, map_to_list_empty. simpl.
    f_equal. lia.
  - rewrite <- capacity_occupants. apply length_filter.
Qed.

Lemma guarded_used_within_capacity_witness :
  acquires_guarded [OpResize None; OpAcquire 1 "a"; OpRelease (-1)] initial ∧
  usedCount (run [OpResize None; OpAcquire 1 "a"; OpRelease (-1)] initial)
  = Some (length (filter is_Some
            (occupants
               (run [OpResize None; OpAcquire 1 "a"; OpRelease (-1)] initial)))).
Proof.
  assert (acquires_guarded
            [OpResize None; OpAcquire 1 "a"; OpRelease (-1)] initial) as Hg
    by (vm_compute; repeat split; lia).
  split; [exact Hg|].
  exact (proj1 (proj2 (guarded_used_within_capacity _ Hg))).
Defined.

(** X4, least-recently-used eviction under pressure: with capacity 2, after
    acquiring "a", "b" and "a" again at a later time than "b", acquiring
    "c" evicts "b": it returns 1 and the occupants are ["a", "c"]. *)
Theorem lru_eviction_example t1 t2 t3 t4 :
  t2 < t3 →
  outcome (acquireSlot t1 "a") (run [OpResize (Some 2)] initial) = Normal 0 ∧
  outcome (acquireSlot t2 "b")
    (run [OpResize (Some 2); OpAcquire t1 "a"] initial) = Normal 1 ∧
  outcome (acquireSlot t3 "a")
    (run [OpResize (Some 2); OpAcquire t1 "a"; OpAcquire t2 "b"] initial)
  = Normal 0 ∧
  outcome (acquireSlot t4 "c")
    (run [OpResize (Some 2); OpAcquire t1 "a"; OpAcquire t2 "b";
          OpAcquire t3 "a"] initial) = Normal 1 ∧
  occupants
    (run [OpResize (Some 2); OpAcquire t1 "a"; OpAcquire t2 "b";
          OpAcquire t3 "a"; OpAcquire t4 "c"] initial)
  = [Some "a"%string; Some "c"%string].
Proof.
  intros Hlt.
  assert (selected "c"
            (extensionSettings
               (run [OpResize (Some 2); OpAcquire t1 "a"; OpAcquire t2 "b";
                     OpAcquire t3 "a"] initial)) = 1) as Hc.
  { unfold selected, JsArray.findIndex, JsArray.forEach. simpl.
    change (least_recent_step (JsOf t3) 0 (Infinity, -1))
      with (DateOf (JsOf t3), 0).
    unfold least_recent_step. simpl.
    by rewrite bool_decide_true by done. }
  split_and!; try reflexivity.
  - by rewrite acquire_outcome, Hc.
  - change (run [OpResize (Some 2); OpAcquire t1 "a"; OpAcquire t2 "b";
                 OpAcquire t3 "a"; OpAcquire t4 "c"] initial)
      with (step (OpAcquire t4 "c")
              (run [OpResize (Some 2); OpAcquire t1 "a"; OpAcquire t2 "b";
                    OpAcquire t3 "a"] initial)).
    rewrite step_acquire, Hc. reflexivity.
Qed.

Lemma lru_eviction_example_witness :
  2 < 3 ∧
  occupants
    (run [OpResize (Some 2); OpAcquire 1 "a"; OpAcquire 2 "b";
          OpAcquire 3 "a"; OpAcquire 4 "c"] initial)
  = [Some "a"%string; Some "c"%string].
Proof.
  assert (2 < 3) as Hlt by lia.
  split; [exact Hlt|].
  exact (proj2 (proj2 (proj2 (proj2 (lru_eviction_example 1 2 3 4 Hlt))))).
Defined.

(** X5: [releaseSlots] empties every slot and keeps the capacity: afterwards
    all occupants and timestamps are empty and, when [slots] has no stray
    property, the displayed used count is 0. *)
Theorem releaseAll_clears w :
  outcome releaseSlots w = Normal tt ∧
  capacity (exec releaseSlots w) = capacity w ∧
  occupants (exec releaseSlots w) = replicate (capacity w) None ∧
  lastUsed (exec releaseSlots w) = replicate (length (lastUsed w)) None ∧
  (JsArray.stray (slots (extensionSettings w)) = ∅ →
   usedCount (exec releaseSlots w) = Some 0%nat).
Proof.
  change (exec releaseSlots w) with (step OpReleaseAll w).
  rewrite step_releaseAll. split_and!.
  - reflexivity.
  - rewrite capacity_refreshed. simpl. unfold JsArray.fill, JsArray.length.
    simpl. by rewrite length_replicate.
  - rewrite occupants_refreshed. simpl. by rewrite fmap_replicate.
  - rewrite lastUsed_refreshed. simpl. rewrite fmap_replicate.
    unfold lastUsed, JsArray.length. by rewrite length_fmap.
  - intros Hstray. rewrite usedCount_formula, occupants_refreshed. simpl.
    rewrite Hstray, map_to_list_empty, fmap_replicate. simpl.
    f_equal. rewrite Nat.add_0_r.
    induction (JsArray.length (slots (extensionSettings w))) as [|n IH];
      [done|].
    simpl. by rewrite filter_cons_False by (by intros [? ?]).
Qed.

(** ** How acquire, release and resize compose *)

(** The three ways [acquireSlot] picks its index, read on the pool. *)
Lemma selected_cases key w :
  (∃ i : nat, selected key (extensionSettings w) = Z.of_nat i ∧
              occupants w !! i = Some (Some key))
  ∨ ((Some key ∉ occupants w) ∧
     ∃ i : nat, selected key (extensionSettings w) = Z.of_nat i ∧
                occupants w !! i = Some None)
  ∨ ((Some key ∉ occupants w) ∧ (None ∉ occupants w) ∧
     selected key (extensionSettings w)
     = (JsArray.forEach least_recent_step (slotsUsage (extensionSettings w))
          (Infinity, -1)).2).
Proof.
  unfold selected.
  destruct (decide (JsArray.findIndex (λ k, k = JsOf key)
                      (slots (extensionSettings w)) ≠ -1)) as [Hex|Hex].
  { left. destruct (findIndex_hit _ _ Hex) as (i & x & Hi & Hx & HP & _).
    exists i. split; [done|]. unfold occupants.
    rewrite list_lookup_fmap, Hx. simpl. f_equal. by apply read_defined. }
  assert (Some key ∉ occupants w) as Hno.
  { intros (j & Hj)%list_elem_of_lookup.
    assert (JsArray.findIndex (λ k, k = JsOf key)
              (slots (extensionSettings w)) = -1) as Hab
      by (destruct (decide (JsArray.findIndex (λ k, k = JsOf key)
                              (slots (extensionSettings w)) = -1)); done).
    unfold occupants in Hj. rewrite list_lookup_fmap in Hj.
    destruct (JsArray.items (slots (extensionSettings w)) !! j)
      as [y|] eqn:Hy; [|done].
    eapply findIndex_absent in Hab; [|done]. apply Hab.
    apply read_defined. by injection Hj. }
  right.
  destruct (decide (JsArray.findIndex (λ k, k = JsUndefined)
                      (slots (extensionSettings w)) ≠ -1)) as [Hav|Hav].
  { left. split; [done|].
    destruct (findIndex_hit _ _ Hav) as (i & x & Hi & Hx & HP & _).
    exists i. split; [done|]. unfold occupants.
    rewrite list_lookup_fmap, Hx. simpl. f_equal. by apply read_undefined. }
  right. split; [done|]. split; [|done].
  intros (j & Hj)%list_elem_of_lookup.
  assert (JsArray.findIndex (λ k, k = JsUndefined)
            (slots (extensionSettings w)) = -1) as Hab
    by (destruct (decide (JsArray.findIndex (λ k, k = JsUndefined)
                            (slots (extensionSettings w)) = -1)); done).
  unfold occupants in Hj. rewrite list_lookup_fmap in Hj.
  destruct (JsArray.items (slots (extensionSettings w)) !! j)
    as [y|] eqn:Hy; [|done].
  eapply findIndex_absent in Hab; [|done]. apply Hab.
  apply read_undefined. by injection Hj.
Qed.

(** X6: [initializeSlots] refuses a total that is negative or above
    2^32 - 1 with a [RangeError], and then nothing has changed: neither
    array, nor a page counter. *)
Theorem resize_rejects_invalid_total n w :
  ¬ (0 ≤ n ≤ JsArray.max_length) →
  outcome (initializeSlots (Some n)) w = Throw RangeError ∧
  exec (initializeSlots (Some n)) w = w.
Proof.
  intros Hn. unfold outcome, exec.
  by rewrite (initializeSlots_throw (Some n) w Hn).
Qed.

Lemma resize_rejects_invalid_total_witness :
  ¬ (0 ≤ -1 ≤ JsArray.max_length) ∧
  outcome (initializeSlots (Some (-1)))
    (run [OpResize None; OpAcquire 1 "a"] initial) = Throw RangeError ∧
  exec (initializeSlots (Some (-1)))
    (run [OpResize None; OpAcquire 1 "a"] initial)
  = run [OpResize None; OpAcquire 1 "a"] initial.
Proof.
  assert (¬ (0 ≤ -1 ≤ JsArray.max_length)) as Hn by (intros [H _]; lia).
  split; [exact Hn|].
  exact (resize_rejects_invalid_total (-1) _ Hn).
Defined.

(** X7: no eviction while there is room. When the key is already held or
    some slot is empty, [acquireSlot] leaves every key that was held in
    the slot it was in. *)
Theorem acquire_keeps_keys_while_room now key w :
  (Some key ∈ occupants w) ∨ (None ∈ occupants w) →
  ∀ (j : nat) k,
    occupants w !! j = Some (Some k) →
    occupants (exec (acquireSlot now key) w) !! j = Some (Some k).
Proof.
  intros Hroom j k Hj.
  destruct (selected_cases key w)
    as [(i & Hsel & Hi)|[(Hno & i & Hsel & Hi)|(Hno & Hfull & _)]].
  - rewrite acquire_occupants
      by (rewrite Hsel, <- capacity_occupants;
          apply lookup_lt_Some in Hi; lia).
    rewrite Hsel, Nat2Z.id. by rewrite list_insert_id.
  - rewrite acquire_occupants
      by (rewrite Hsel, <- capacity_occupants;
          apply lookup_lt_Some in Hi; lia).
    rewrite Hsel, Nat2Z.id.
    rewrite list_lookup_insert_ne; [done|]. intros ->. congruence.
  - by destruct Hroom.
Qed.

Lemma acquire_keeps_keys_while_room_witness :
  ((Some "c"%string ∈ occupants (run [OpResize None; OpAcquire 1 "a"] initial))
   ∨ (None ∈ occupants (run [OpResize None; OpAcquire 1 "a"] initial))) ∧
  occupants (run [OpResize None; OpAcquire 1 "a"] initial) !! 0%nat
  = Some (Some "a"%string) ∧
  occupants
    (exec (acquireSlot 2 "c") (run [OpResize None; OpAcquire 1 "a"] initial))
    !! 0%nat = Some (Some "a"%string).
Proof.
  assert ((Some "c"%string
             ∈ occupants (run [OpResize None; OpAcquire 1 "a"] initial))
          ∨ (None ∈ occupants (run [OpResize None; OpAcquire 1 "a"] initial)))
    as Hroom by (right; vm_compute; apply list_elem_of_In; simpl; tauto).
  assert (occupants (run [OpResize None; OpAcquire 1 "a"] initial) !! 0%nat
          = Some (Some "a"%string)) as Ha by reflexivity.
  split; [exact Hroom|]. split; [exact Ha|].
  exact (acquire_keeps_keys_while_room 2 "c" _ Hroom 0%nat "a" Ha).
Defined.

(** X8: the key acquired last is not the next one evicted. In a reachable
    state of capacity at least 2, after [acquireSlot] of [key] at a time
    later than every timestamp in the pool, acquiring any other key, at
    whatever time, leaves [key] in the slot it was given. *)
Theorem fresh_key_survives_next_acquire now now' key key' w :
  reachable w → (2 ≤ capacity w)%nat →
  (∀ (j : nat) t, lastUsed w !! j = Some (Some t) → t < now) →
  key' ≠ key →
  ∃ i : nat,
    outcome (acquireSlot now key) w = Normal (Z.of_nat i) ∧
    occupants
      (exec (acquireSlot now' key') (exec (acquireSlot now key) w)) !! i
    = Some (Some key).
Proof.
  intros Hr Hcap Hnewer Hne.
  assert (0 < capacity w)%nat as Hpos by lia.
  pose proof (selected_in_pool key w Hr Hpos) as Hin.
  set (w1 := exec (acquireSlot now key) w).
  set (i := Z.to_nat (selected key (extensionSettings w))).
  assert (reachable w1) as Hr1 by apply (reachable_step (OpAcquire now key) w Hr).
  assert (occupants w1 = <[i := Some key]> (occupants w)) as Ho1
    by (by apply acquire_occupants).
  assert (lastUsed w1 = <[i := Some now]> (lastUsed w)) as Hl1.
  { apply acquire_lastUsed. by rewrite reachable_lastUsed_length. }
  assert (capacity w1 = capacity w) as Hc1 by (apply acquire_capacity; lia).
  assert (occupants w1 !! i = Some (Some key)) as Hi1.
  { rewrite Ho1. apply list_lookup_insert_eq.
    rewrite capacity_occupants. lia. }
  exists i. split; [rewrite acquire_outcome; f_equal; lia|].
  assert (0 < capacity w1)%nat as Hpos1 by lia.
  pose proof (selected_in_pool key' w1 Hr1 Hpos1) as Hin'.
  rewrite acquire_occupants by done.
  rewrite list_lookup_insert_ne; [done|]. intros Heq.
  destruct (selected_cases key' w1)
    as [(i' & Hsel & Hi')|[(_ & i' & Hsel & Hi')|(_ & Hfull & Hs)]].
  - rewrite Hsel, Nat2Z.id in Heq. subst i'. congruence.
  - rewrite Hsel, Nat2Z.id in Heq. subst i'. congruence.
  - destruct (eviction_choice w1 Hr1 Hpos1 Hfull)
      as (n & t & Hscan & Hn & Hmin & _).
    assert (selected key' (extensionSettings w1) = Z.of_nat n) as Hsel
      by (by rewrite Hs).
    rewrite Hsel, Nat2Z.id in Heq. subst n.
    rewrite Hl1 in Hn.
    rewrite list_lookup_insert_eq in Hn
      by (rewrite reachable_lastUsed_length by done; lia).
    injection Hn as <-.
    (* some other slot exists, it is occupied and carries an older time *)
    set (j := if decide (i = 0%nat) then 1%nat else 0%nat).
    assert (j ≠ i ∧ (j < capacity w)%nat) as [Hji Hjc]
      by (unfold j; case_decide; lia).
    assert (∃ t', lastUsed w1 !! j = Some (Some t')) as [t' Ht'].
    { destruct (occupants w1 !! j) as [[k|]|] eqn:Hoj.
      - by apply (reachable_stamped w1 j Hr1) in Hoj.
      - exfalso. apply Hfull. apply list_elem_of_lookup. by exists j.
      - apply lookup_ge_None in Hoj. rewrite capacity_occupants in Hoj. lia. }
    pose proof (Hmin j t' Ht') as Hle.
    rewrite Hl1, list_lookup_insert_ne in Ht' by done.
    pose proof (Hnewer j t' Ht'). lia.
Qed.

Lemma fresh_key_survives_next_acquire_witness :
  reachable (run [OpResize None; OpAcquire 1 "a"; OpAcquire 2 "b"] initial) ∧
  (2 ≤ capacity
         (run [OpResize None; OpAcquire 1 "a"; OpAcquire 2 "b"] initial))%nat ∧
  ∃ i : nat,
    outcome (acquireSlot 3 "c")
      (run [OpResize None; OpAcquire 1 "a"; OpAcquire 2 "b"] initial)
    = Normal (Z.of_nat i) ∧
    occupants
      (exec (acquireSlot 0 "d")
         (exec (acquireSlot 3 "c")
            (run [OpResize None; OpAcquire 1 "a"; OpAcquire 2 "b"] initial)))
      !! i = Some (Some "c"%string).
Proof.
  assert (reachable
            (run [OpResize None; OpAcquire 1 "a"; OpAcquire 2 "b"] initial))
    as Hr by (by exists [OpResize None; OpAcquire 1 "a"; OpAcquire 2 "b"]).
  assert (2 ≤ capacity
                (run [OpResize None; OpAcquire 1 "a"; OpAcquire 2 "b"] initial))%nat
    as Hcap by (vm_compute; lia).
  assert (∀ (j : nat) t,
            lastUsed
              (run [OpResize None; OpAcquire 1 "a"; OpAcquire 2 "b"] initial)
              !! j = Some (Some t) → t < 3) as Hnewer.
  { intros [|[|j]] t; vm_compute; intros [= <-]; reflexivity. }
  assert ("d"%string ≠ "c"%string) as Hne by discriminate.
  split; [exact Hr|]. split; [exact Hcap|].
  exact (fresh_key_survives_next_acquire 3 0 "c" "d" _ Hr Hcap Hnewer Hne).
Defined.

(** X9: acquiring into a free slot and releasing the returned index is a
    round trip. In a reachable state where the key is not held and some
    slot is empty, the occupants, the timestamps and the capacity after
    [acquireSlot] followed by [releaseSlot] of its result are those
    before. *)
Theorem acquire_then_release_restores now key w :
  reachable w → Some key ∉ occupants w → None ∈ occupants w →
  ∃ i,
    outcome (acquireSlot now key) w = Normal i ∧
    0 ≤ i < Z.of_nat (capacity w) ∧
    occupants (exec (releaseSlot i) (exec (acquireSlot now key) w))
    = occupants w ∧
    lastUsed (exec (releaseSlot i) (exec (acquireSlot now key) w))
    = lastUsed w ∧
    capacity (exec (releaseSlot i) (exec (acquireSlot now key) w))
    = capacity w.
Proof.
  intros Hr Hno Hroom.
  destruct (selected_cases key w)
    as [(i & _ & Hi)|[(_ & i & Hsel & Hi)|(_ & Hfull & _)]]; [| |done].
  { exfalso. apply Hno. apply list_elem_of_lookup. by exists i. }
  pose proof (lookup_lt_Some _ _ _ Hi) as Hlt.
  rewrite capacity_occupants in Hlt.
  exists (Z.of_nat i). split; [by rewrite acquire_outcome, Hsel|].
  split; [lia|].
  rewrite release_occupants, release_lastUsed, release_capacity.
  rewrite acquire_occupants, acquire_lastUsed, acquire_capacity;
    rewrite ?Hsel, ?reachable_lastUsed_length by done; try lia.
  case_decide; [|lia]. rewrite !Nat2Z.id, !list_insert_insert_eq.
  split_and!; [| |done].
  - by apply list_insert_id.
  - apply list_insert_id. by apply (reachable_stamped w i Hr).
Qed.

Lemma acquire_then_release_restores_witness :
  reachable (run [OpResize None; OpAcquire 1 "a"] initial) ∧
  (Some "b"%string ∉ occupants (run [OpResize None; OpAcquire 1 "a"] initial)) ∧
  (None ∈ occupants (run [OpResize None; OpAcquire 1 "a"] initial)) ∧
  ∃ i,
    outcome (acquireSlot 2 "b") (run [OpResize None; OpAcquire 1 "a"] initial)
    = Normal i ∧
    0 ≤ i < Z.of_nat (capacity (run [OpResize None; OpAcquire 1 "a"] initial)) ∧
    occupants
      (exec (releaseSlot i)
         (exec (acquireSlot 2 "b")
            (run [OpResize None; OpAcquire 1 "a"] initial)))
    = occupants (run [OpResize None; OpAcquire 1 "a"] initial) ∧
    lastUsed
      (exec (releaseSlot i)
         (exec (acquireSlot 2 "b")
            (run [OpResize None; OpAcquire 1 "a"] initial)))
    = lastUsed (run [OpResize None; OpAcquire 1 "a"] initial) ∧
    capacity
      (exec (releaseSlot i)
         (exec (acquireSlot 2 "b")
            (run [OpResize None; OpAcquire 1 "a"] initial)))
    = capacity (run [OpResize None; OpAcquire 1 "a"] initial).
Proof.
  assert (reachable (run [OpResize None; OpAcquire 1 "a"] initial)) as Hr
    by (by exists [OpResize None; OpAcquire 1 "a"]).
  assert (Some "b"%string
            ∉ occupants (run [OpResize None; OpAcquire 1 "a"] initial)) as Hno
    by (vm_compute; intros H%list_elem_of_In; simpl in H; intuition congruence).
  assert (None ∈ occupants (run [OpResize None; OpAcquire 1 "a"] initial))
    as Hroom by (vm_compute; apply list_elem_of_In; simpl; tauto).
  split; [exact Hr|]. split; [exact Hno|]. split; [exact Hroom|].
  exact (acquire_then_release_restores 2 "b" _ Hr Hno Hroom).
Defined.

(** X10: growing the pool and shrinking it back is a round trip. In a
    reachable state of capacity [n], [initializeSlots m] with
    n ≤ m ≤ 2^32 - 1 followed by [initializeSlots n] gives back the
    occupants, the timestamps and the capacity. *)
Theorem grow_then_shrink_restores m w :
  reachable w → Z.of_nat (capacity w) ≤ m ≤ JsArray.max_length →
  occupants
    (exec (initializeSlots (Some (Z.of_nat (capacity w))))
       (exec (initializeSlots (Some m)) w)) = occupants w ∧
  lastUsed
    (exec (initializeSlots (Some (Z.of_nat (capacity w))))
       (exec (initializeSlots (Some m)) w)) = lastUsed w ∧
  capacity
    (exec (initializeSlots (Some (Z.of_nat (capacity w))))
       (exec (initializeSlots (Some m)) w)) = capacity w.
Proof.
  intros Hr Hm.
  assert (0 ≤ Z.of_nat (capacity w) ≤ JsArray.max_length) as Hn by lia.
  assert (0 ≤ m ≤ JsArray.max_length) as Hm' by lia.
  assert (occupants
            (exec (initializeSlots (Some (Z.of_nat (capacity w))))
               (exec (initializeSlots (Some m)) w)) = occupants w) as Hocc.
  { rewrite !resize_occupants by done. rewrite Nat2Z.id.
    rewrite resize_resize by lia. apply resize_all_alt.
    by rewrite capacity_occupants. }
  split; [done|]. split.
  - rewrite !resize_lastUsed by done. rewrite Nat2Z.id.
    rewrite resize_resize by lia. apply resize_all_alt.
    by rewrite reachable_lastUsed_length.
  - rewrite <- (capacity_occupants (exec _ _)), Hocc.
    apply capacity_occupants.
Qed.

Lemma grow_then_shrink_restores_witness :
  reachable (run [OpResize None; OpAcquire 1 "a"] initial) ∧
  Z.of_nat (capacity (run [OpResize None; OpAcquire 1 "a"] initial)) ≤ 5
  ≤ JsArray.max_length ∧
  occupants
    (exec (initializeSlots
             (Some (Z.of_nat
                      (capacity (run [OpResize None; OpAcquire 1 "a"] initial)))))
       (exec (initializeSlots (Some 5))
          (run [OpResize None; OpAcquire 1 "a"] initial)))
  = occupants (run [OpResize None; OpAcquire 1 "a"] initial).
Proof.
  assert (reachable (run [OpResize None; OpAcquire 1 "a"] initial)) as Hr
    by (by exists [OpResize None; OpAcquire 1 "a"]).
  assert (Z.of_nat (capacity (run [OpResize None; OpAcquire 1 "a"] initial))
          ≤ 5 ≤ JsArray.max_length) as Hm by (by vm_compute).
  split; [exact Hr|]. split; [exact Hm|].
  exact (proj1 (grow_then_shrink_restores 5 _ Hr Hm)).
Defined.

(** Releasing the indices of a list one after the other. *)
Lemma release_each_occupants (indices : list nat) w :
  occupants (run ((λ i, OpRelease (Z.of_nat i)) <$> indices) w)
  = foldl (λ l i, <[i := None]> l) (occupants w) indices.
Proof.
  revert w. induction indices as [|i indices IH]; intros w; [done|].
  simpl. rewrite IH. change (step (OpRelease (Z.of_nat i)) w)
    with (exec (releaseSlot (Z.of_nat i)) w).
  rewrite release_occupants. case_decide; [|lia]. by rewrite Nat2Z.id.
Qed.

Lemma release_each_lastUsed (indices : list nat) w :
  lastUsed (run ((λ i, OpRelease (Z.of_nat i)) <$> indices) w)
  = foldl (λ l i, <[i := None]> l) (lastUsed w) indices.
Proof.
  revert w. induction indices as [|i indices IH]; intros w; [done|].
  simpl. rewrite IH. change (step (OpRelease (Z.of_nat i)) w)
    with (exec (releaseSlot (Z.of_nat i)) w).
  rewrite release_lastUsed. case_decide; [|lia]. by rewrite Nat2Z.id.
Qed.

Lemma release_each_capacity (indices : list nat) w :
  capacity (run ((λ i, OpRelease (Z.of_nat i)) <$> indices) w) = capacity w.
Proof.
  revert w. induction indices as [|i indices IH]; intros w; [done|].
  simpl. rewrite IH. apply release_capacity.
Qed.

Lemma clear_each_lookup {A} (indices : list nat) (l : list (option A))
    (j : nat) :
  foldl (λ l i, <[i := None]> l) l indices !! j
  = if decide (j ∈ indices ∧ (j < length l)%nat) then Some None else l !! j.
Proof.
  revert l. induction indices as [|i indices IH]; intros l; cbn [foldl].
  { destruct (decide _) as [[H _]|]; [|done]. by apply elem_of_nil in H. }
  rewrite IH, length_insert.
  destruct (decide (j ∈ indices ∧ (j < length l)%nat)) as [[Hin Hlt]|Hout].
  - rewrite decide_True; [done|]. split; [by right|done].
  - destruct (decide (i = j)) as [->|Hij].
    + destruct (decide (j < length l)%nat) as [Hlt|Hge].
      * rewrite list_lookup_insert_eq by done.
        rewrite decide_True; [done|]. split; [left|done].
      * rewrite list_insert_ge by lia.
        rewrite decide_False; [done|]. intros [_ ?]. lia.
    + rewrite list_lookup_insert_ne by done.
      rewrite decide_False; [done|]. intros [Hin Hlt]. apply Hout.
      split; [|done]. apply elem_of_cons in Hin as [->|]; done.
Qed.

Lemma clear_all {A} (l : list (option A)) :
  foldl (λ l i, <[i := None]> l) l (seq 0 (length l))
  = replicate (length l) None.
Proof.
  apply list_eq. intros j. rewrite clear_each_lookup.
  case_decide as H.
  - symmetry. apply lookup_replicate_2. tauto.
  - assert (¬ (j < length l)%nat) as Hge.
    { intros Hlt. apply H. split; [|done]. apply elem_of_seq. lia. }
    rewrite lookup_ge_None_2 by lia. symmetry.
    apply lookup_replicate_None. lia.
Qed.

(** X11: [releaseSlots] does to the pool what releasing every index from
    0 to capacity - 1 does. In a reachable state both leave the same
    occupants, the same timestamps (all empty) and the same capacity. *)
Theorem releaseAll_as_release_each w :
  reachable w →
  occupants (run ((λ i, OpRelease (Z.of_nat i)) <$> seq 0 (capacity w)) w)
  = occupants (exec releaseSlots w) ∧
  lastUsed (run ((λ i, OpRelease (Z.of_nat i)) <$> seq 0 (capacity w)) w)
  = lastUsed (exec releaseSlots w) ∧
  capacity (run ((λ i, OpRelease (Z.of_nat i)) <$> seq 0 (capacity w)) w)
  = capacity (exec releaseSlots w).
Proof.
  intros Hr.
  change (exec releaseSlots w) with (step OpReleaseAll w).
  rewrite step_releaseAll, occupants_refreshed, lastUsed_refreshed,
    capacity_refreshed. simpl. rewrite !fmap_replicate. simpl.
  rewrite release_each_occupants, release_each_lastUsed,
    release_each_capacity.
  split_and!.
  - rewrite <- capacity_occupants. rewrite clear_all.
    by rewrite capacity_occupants.
  - rewrite <- (reachable_lastUsed_length w Hr). rewrite clear_all.
    unfold lastUsed, JsArray.length. by rewrite length_fmap.
  - unfold JsArray.fill, JsArray.length. simpl. by rewrite length_replicate.
Qed.

Lemma releaseAll_as_release_each_witness :
  reachable (run [OpResize None; OpAcquire 1 "a"; OpAcquire 2 "b"] initial) ∧
  occupants
    (run ((λ i, OpRelease (Z.of_nat i))
            <$> seq 0 (capacity
                         (run [OpResize None; OpAcquire 1 "a"; OpAcquire 2 "b"]
                            initial)))
       (run [OpResize None; OpAcquire 1 "a"; OpAcquire 2 "b"] initial))
  = occupants
      (exec releaseSlots
         (run [OpResize None; OpAcquire 1 "a"; OpAcquire 2 "b"] initial)).
Proof.
  assert (reachable
            (run [OpResize None; OpAcquire 1 "a"; OpAcquire 2 "b"] initial))
    as Hr by (by exists [OpResize None; OpAcquire 1 "a"; OpAcquire 2 "b"]).
  split; [exact Hr|].
  exact (proj1 (releaseAll_as_release_each _ Hr)).
Defined.

(** ** The character list *)

Lemma index_entries_values {A} k (l : list (option (JsVal A))) :
  (index_entries_from k l).*2 = omap id l.
Proof.
  revert k. induction l as [|[v|] l IH]; intros k; simpl; [done|..].
  - by rewrite IH.
  - apply IH.
Qed.

Lemma Object_entries_values {A} (a : JsArray.t A) :
  (Object_entries a).*2 = JsArray.values a.
Proof.
  unfold Object_entries, JsArray.values.
  by rewrite fmap_app, index_entries_values.
Qed.

Lemma character_rows_length h (entries : list (Z * JsVal string)) :
  length (omap (character_row h) entries)
  = length (filter (λ name, typeof_is_string name) entries.*2).
Proof.
  induction entries as [|[k [|n]] entries IH];
    cbn [omap list_omap fmap list_fmap character_row snd]; [done|..].
  - by rewrite filter_cons_False by (by intros ?).
  - rewrite filter_cons_True by done. simpl. by rewrite IH.
Qed.

(** The rows made from the index entries of a list, from offset [k]. *)
Lemma index_rows_elem h k (l : list (option (JsVal string))) r :
  r ∈ omap (character_row h) (index_entries_from k l) ↔
  ∃ (j : nat) n,
    l !! j = Some (Some (JsOf n)) ∧
    r = {| Row.avatar := avatar_for h n; Row.name := n;
           Row.slot := k + Z.of_nat j |}.
Proof.
  revert k. induction l as [|x l IH]; intros k.
  { simpl. split; [by intros ?%elem_of_nil|]. by intros (j & n & ? & _). }
  cbn [index_entries_from]. rewrite omap_app, elem_of_app, IH. split.
  - intros [Hhead|(j & n & Hj & ->)].
    + destruct x as [[|n]|]; simpl in Hhead; try by apply elem_of_nil in Hhead.
      apply list_elem_of_singleton in Hhead as ->.
      exists 0%nat, n. split; [done|]. unfold character_row. simpl.
      by rewrite Z.add_0_r.
    + exists (S j), n. split; [done|]. by rewrite shift_index.
  - intros ([|j] & n & Hj & ->).
    + left. simpl in Hj. injection Hj as ->. simpl.
      apply list_elem_of_singleton. unfold character_row. simpl.
      by rewrite Z.add_0_r.
    + right. exists j, n. split; [done|]. by rewrite shift_index.
Qed.

Lemma index_rows_sorted h k (l : list (option (JsVal string))) :
  StronglySorted Z.lt
    (Row.slot <$> omap (character_row h) (index_entries_from k l)).
Proof.
  revert k. induction l as [|x l IH]; intros k; [constructor|].
  cbn [index_entries_from]. rewrite omap_app.
  destruct x as [[|n]|]; simpl; try apply IH.
  constructor; [apply IH|].
  apply Forall_forall. intros s (r & -> & Hr)%list_elem_of_fmap.
  apply index_rows_elem in Hr as (j & n' & _ & ->). simpl. lia.
Qed.

Lemma count_used_rows h s :
  count_used (JsArray.values (slots s)) = length (character_rows h s).
Proof.
  unfold count_used. rewrite count_used_from. simpl. unfold character_rows.
  by rewrite character_rows_length, Object_entries_values.
Qed.

(** X12: the character list and the used counter agree. In every state
    [updateCharacterList] builds exactly as many rows as
    [updateSlotsAvailability] displays used slots. *)
Theorem character_rows_match_used_count h w :
  usedCount w
  = Some (length (character_rows h (extensionSettings w))).
Proof.
  unfold usedCount, exec. rewrite updateSlotsAvailability_run. simpl.
  f_equal. apply count_used_rows.
Qed.

Lemma rows_elem_no_stray h w r :
  JsArray.stray (slots (extensionSettings w)) = ∅ →
  r ∈ character_rows h (extensionSettings w) ↔
  ∃ (j : nat) n,
    occupants w !! j = Some (Some n) ∧
    r = {| Row.avatar := avatar_for h n; Row.name := n;
           Row.slot := Z.of_nat j |}.
Proof.
  intros Hstray. unfold character_rows, Object_entries.
  rewrite Hstray, map_to_list_empty, app_nil_r.
  rewrite index_rows_elem. unfold occupants.
  split; intros (j & n & Hj & ->); exists j, n; (split; [|done]).
  - by rewrite list_lookup_fmap, Hj.
  - rewrite list_lookup_fmap in Hj.
    destruct (JsArray.items (slots (extensionSettings w)) !! j)
      as [[[|n']|]|]; simpl in Hj; congruence.
Qed.

(** X13: the character list shows the occupied slots, one row each, in
    ascending slot order. When [slots] has no stray property, a row is in
    the list exactly when its slot is an index holding its name and its
    avatar is the one looked up for that name, and the slots of the rows
    increase strictly along the list. *)
Theorem character_rows_are_occupied_slots h w :
  JsArray.stray (slots (extensionSettings w)) = ∅ →
  (∀ r, r ∈ character_rows h (extensionSettings w) ↔
        ∃ (j : nat) n,
          occupants w !! j = Some (Some n) ∧
          r = {| Row.avatar := avatar_for h n; Row.name := n;
                 Row.slot := Z.of_nat j |}) ∧
  StronglySorted Z.lt (Row.slot <$> character_rows h (extensionSettings w)).
Proof.
  intros Hstray. split.
  - intros r. by apply rows_elem_no_stray.
  - unfold character_rows, Object_entries.
    rewrite Hstray, map_to_list_empty, app_nil_r. apply index_rows_sorted.
Qed.

Lemma character_rows_are_occupied_slots_witness :
  JsArray.stray
    (slots (extensionSettings
              (run [OpResize None; OpAcquire 1 "a"; OpAcquire 2 "b";
                    OpRelease 0] initial))) = ∅ ∧
  StronglySorted Z.lt
    (Row.slot
       <$> character_rows
             {| characters := [Character.mk "b" "b.png"];
                default_avatar := "default.png";
                getThumbnailUrl := λ kind file, (kind +:+ "/" +:+ file)%string |}
             (extensionSettings
                (run [OpResize None; OpAcquire 1 "a"; OpAcquire 2 "b";
                      OpRelease 0] initial))).
Proof.
  assert (JsArray.stray
            (slots (extensionSettings
                      (run [OpResize None; OpAcquire 1 "a"; OpAcquire 2 "b";
                            OpRelease 0] initial))) = ∅) as Hstray
    by reflexivity.
  split; [exact Hstray|].
  exact (proj2 (character_rows_are_occupied_slots _ _ Hstray)).
Defined.

(** X14: the avatar of a row falls back to the default. A name that no
    character bears, or whose first bearer has the avatar "none", gets
    [default_avatar]; any other name gets the thumbnail of the avatar of
    the first character bearing it. *)
Theorem avatar_lookup_falls_back h n :
  ((∀ c, c ∈ characters h → Character.name c ≠ n) →
   avatar_for h n = default_avatar h) ∧
  (∀ (i : nat) c,
     characters h !! i = Some c → Character.name c = n →
     (∀ (j : nat) c', characters h !! j = Some c' → (j < i)%nat →
                      Character.name c' ≠ n) →
     avatar_for h n
     = if decide (Character.avatar c = "none"%string)
       then default_avatar h
       else getThumbnailUrl h "avatar" (Character.avatar c)).
Proof.
  unfold avatar_for. split.
  - intros Hnone.
    destruct (list_find _ _) as [[i c]|] eqn:Hf; [|done].
    apply list_find_Some in Hf as (Hi & Hc & _).
    exfalso. by apply (Hnone c); [eapply list_elem_of_lookup_2|].
  - intros i c Hi Hc Hfirst.
    assert (list_find (λ x, Character.name x = n) (characters h)
            = Some (i, c)) as ->.
    { apply list_find_Some. split_and!; [done|done|].
      intros j c' Hj Hlt. by apply (Hfirst j c'). }
    by repeat case_decide.
Qed.

(** The only stray property [slots] can have in a reachable state is [-1],
    holding a key. *)
Lemma reachable_stray w :
  reachable w →
  JsArray.stray (slots (extensionSettings w)) = ∅ ∨
  ∃ key, JsArray.stray (slots (extensionSettings w)) = {[ -1 := JsOf key ]}.
Proof.
  revert w. apply reachable_induction; [by left|].
  intros op w Hr IH. pose proof (reachable_synced w Hr) as Hs.
  destruct op as [arg|now key|i|].
  - by destruct (step_resize arg w) as [->|[_ ->]].
  - rewrite step_acquire. simpl.
    destruct (selected_range key (extensionSettings w) Hs) as [->|Hin].
    + right. exists key. unfold JsArray.set. simpl.
      destruct IH as [->|[key' ->]].
      * apply insert_empty.
      * apply insert_singleton_eq.
    + unfold JsArray.set. by repeat case_decide; try lia.
  - rewrite step_release. simpl. unfold JsArray.delete.
    case_decide; simpl; [done|].
    destruct IH as [->|[key' ->]].
    + left. apply delete_empty.
    + destruct (decide (i = -1)) as [->|Hne].
      * left. apply delete_singleton_eq.
      * right. exists key'. by apply delete_singleton_ne.
  - by rewrite step_releaseAll.
Qed.

Lemma filter_all {A} (P : A → Prop) `{∀ x, Decision (P x)} (l : list A) :
  Forall P l → filter P l = l.
Proof.
  induction 1 as [|x l Hx _ IH]; [done|].
  by rewrite filter_cons_True, IH.
Qed.

Lemma index_rows_delete h k (l : list (option (JsVal string))) (n : nat) :
  omap (character_row h) (index_entries_from k (<[n := None]> l))
  = filter (λ r, Row.slot r ≠ k + Z.of_nat n)
      (omap (character_row h) (index_entries_from k l)).
Proof.
  revert k n. induction l as [|x l IH]; intros k n; [done|].
  destruct n as [|n]; cbn [insert list_insert index_entries_from].
  - rewrite app_nil_l, omap_app, filter_app, Z.add_0_r.
    rewrite (filter_all _ (omap _ (index_entries_from (k + 1) l))).
    + destruct x as [[|name]|]; simpl; [done| |done].
      by rewrite filter_cons_False by (simpl; intros H; by apply H).
    + apply Forall_forall. intros r (j & name & _ & ->)%index_rows_elem.
      simpl. lia.
  - rewrite !omap_app, filter_app, IH, shift_index. f_equal.
    destruct x as [[|name]|]; simpl; [done| |done].
    rewrite filter_cons_True; [done|]. simpl. lia.
Qed.

(** X15: releasing a slot removes its row and no other. In a reachable
    state, for every index, the character list after [releaseSlot] is the
    list before without the rows of that slot, the others in the same
    order. *)
Theorem release_removes_row h index w :
  reachable w →
  character_rows h (extensionSettings (exec (releaseSlot index) w))
  = filter (λ r, Row.slot r ≠ index) (character_rows h (extensionSettings w)).
Proof.
  intros Hr.
  change (exec (releaseSlot index) w) with (step (OpRelease index) w).
  rewrite step_release. unfold character_rows, Object_entries. simpl.
  rewrite !omap_app, filter_app.
  assert (Forall (λ r, 0 ≤ Row.slot r)
            (omap (character_row h)
               (index_entries_from 0
                  (JsArray.items (slots (extensionSettings w)))))) as Hidx.
  { apply Forall_forall. intros r (j & name & _ & ->)%index_rows_elem.
    simpl. lia. }
  unfold JsArray.delete. case_decide as Hsign; simpl.
  - rewrite (index_rows_delete h 0), Z.add_0_l, Z2Nat.id by done. f_equal.
    symmetry. apply filter_all.
    destruct (reachable_stray w Hr) as [->|[key ->]].
    + by rewrite map_to_list_empty.
    + rewrite map_to_list_singleton. simpl. repeat constructor. simpl. lia.
  - f_equal.
    + symmetry. apply filter_all. eapply Forall_impl; [exact Hidx|].
      simpl. intros r ?. lia.
    + destruct (reachable_stray w Hr) as [->|[key ->]].
      * by rewrite delete_empty, map_to_list_empty.
      * destruct (decide (index = -1)) as [->|Hne].
        -- rewrite delete_singleton_eq, map_to_list_empty,
             map_to_list_singleton. simpl.
           by rewrite filter_cons_False by (simpl; intros H; by apply H).
        -- rewrite delete_singleton_ne by done.
           rewrite map_to_list_singleton. simpl.
           by rewrite filter_cons_True by (simpl; congruence).
Qed.

Lemma release_removes_row_witness :
  reachable (run [OpResize None; OpAcquire 1 "a"; OpAcquire 2 "b"] initial) ∧
  character_rows
    {| characters := []; default_avatar := "default.png";
       getThumbnailUrl := λ kind file, file |}
    (extensionSettings
       (exec (releaseSlot 0)
          (run [OpResize None; OpAcquire 1 "a"; OpAcquire 2 "b"] initial)))
  = filter (λ r, Row.slot r ≠ 0)
      (character_rows
         {| characters := []; default_avatar := "default.png";
            getThumbnailUrl := λ kind file, file |}
         (extensionSettings
            (run [OpResize None; OpAcquire 1 "a"; OpAcquire 2 "b"] initial))).
Proof.
  assert (reachable
            (run [OpResize None; OpAcquire 1 "a"; OpAcquire 2 "b"] initial))
    as Hr by (by exists [OpResize None; OpAcquire 1 "a"; OpAcquire 2 "b"]).
  split; [exact Hr|].
  exact (release_removes_row _ 0 _ Hr).
Defined.

(** ** Sessions driven by the event handlers *)

Lemma releaseAll_capacity w :
  capacity (step OpReleaseAll w) = capacity w ∧
  JsArray.stray (slots (extensionSettings (step OpReleaseAll w)))
  = JsArray.stray (slots (extensionSettings w)).
Proof.
  rewrite step_releaseAll, capacity_refreshed. simpl. split; [|done].
  unfold JsArray.fill, JsArray.length. simpl. by rewrite length_replicate.
Qed.

Lemma default_total_in_range : 0 ≤ default 2 None ≤ JsArray.max_length.
Proof. by vm_compute. Qed.

Lemma handle_world h ev ses :
  world (handle h ev ses) = step (op_of ev) (world ses).
Proof.
  destruct ev as [| |slot| |now char];
    cbn [handle op_of step]; unfold in_session, exec.
  - by rewrite (initializeSlots_ok None _ default_total_in_range).
  - by rewrite (initializeSlots_ok None _ default_total_in_range).
  - by rewrite releaseSlot_run.
  - by rewrite releaseSlots_run.
  - by rewrite acquireSlot_run, allocateSlot_run.
Qed.

Lemma handle_character_list h ev ses :
  slot_manager_character_list (handle h ev ses)
  = Some (character_rows h (extensionSettings (world (handle h ev ses)))).
Proof.
  destruct ev as [| |slot| |now char];
    cbn [handle op_of step]; unfold in_session.
  - by rewrite (initializeSlots_ok None _ default_total_in_range).
  - by rewrite (initializeSlots_ok None _ default_total_in_range).
  - by rewrite releaseSlot_run.
  - by rewrite releaseSlots_run.
  - by rewrite acquireSlot_run, allocateSlot_run.
Qed.

Lemma handle_currentSlot h ev ses :
  currentSlot (handle h ev ses)
  = match ev with
    | GenerateBeforeCombinePrompts now char =>
        SlotNumber (selected char (extensionSettings (world ses)))
    | _ => currentSlot ses
    end.
Proof.
  destruct ev as [| |slot| |now char];
    cbn [handle op_of step]; unfold in_session.
  - by rewrite (initializeSlots_ok None _ default_total_in_range).
  - by rewrite (initializeSlots_ok None _ default_total_in_range).
  - by rewrite releaseSlot_run.
  - by rewrite releaseSlots_run.
  - by rewrite acquireSlot_run, allocateSlot_run.
Qed.

Lemma step_default_resize w :
  step (OpResize None) w
  = refreshed
      {| slots :=
           JsArray.mk (resize 2 None (JsArray.items (slots (extensionSettings w))))
             (JsArray.stray (slots (extensionSettings w)));
         slotsUsage :=
           JsArray.mk
             (resize 2 None (JsArray.items (slotsUsage (extensionSettings w))))
             (JsArray.stray (slotsUsage (extensionSettings w))) |}.
Proof.
  simpl. unfold exec.
  by rewrite (initializeSlots_ok None _ default_total_in_range).
Qed.

Lemma step_op_of_refreshed ev w :
  step (op_of ev) w = refreshed (extensionSettings (step (op_of ev) w)).
Proof.
  destruct ev as [| |slot| |now char]; unfold op_of.
  - by rewrite step_default_resize.
  - by rewrite step_default_resize.
  - by rewrite step_release.
  - by rewrite step_releaseAll.
  - by rewrite step_acquire.
Qed.

(** What the invariant [synced] gives, whether or not the state was
    reached from the empty pool. *)
Lemma synced_stamped w (i : nat) :
  synced (extensionSettings w) →
  (occupants w !! i = Some None ↔ lastUsed w !! i = Some None) ∧
  (∀ key, occupants w !! i = Some (Some key) →
          ∃ t, lastUsed w !! i = Some (Some t)).
Proof.
  intros Hs. unfold synced in Hs. unfold occupants, lastUsed.
  rewrite !list_lookup_fmap.
  destruct (JsArray.items (slots (extensionSettings w)) !! i) as [x|] eqn:Hx;
    destruct (JsArray.items (slotsUsage (extensionSettings w)) !! i)
      as [y|] eqn:Hy; simpl.
  - pose proof (Forall2_lookup_lr _ _ _ _ _ _ Hs Hx Hy) as [H1 H2].
    split.
    + split; intros [= Hn]; f_equal.
      * destruct (defined y); [|done].
        destruct H2 as [? ?]; [by eexists|congruence].
      * destruct (defined x); [|done].
        destruct H1 as [? ?]; [by eexists|congruence].
    + intros key [= Hk]. destruct H1 as [t Ht]; [by eexists|].
      exists t. by rewrite Ht.
  - apply lookup_lt_Some in Hx. apply lookup_ge_None in Hy.
    apply Forall2_length in Hs. lia.
  - apply lookup_lt_Some in Hy. apply lookup_ge_None in Hx.
    apply Forall2_length in Hs. lia.
  - split; [split; done|done].
Qed.

Lemma synced_lastUsed_length w :
  synced (extensionSettings w) → length (lastUsed w) = capacity w.
Proof.
  intros Hs. unfold lastUsed, capacity. rewrite length_fmap.
  exact (synced_length _ Hs).
Qed.

Lemma synced_selected_in_pool key w :
  synced (extensionSettings w) → (0 < capacity w)%nat →
  0 ≤ selected key (extensionSettings w) < Z.of_nat (capacity w).
Proof.
  intros Hs Hcap.
  destruct (selected_cases key w)
    as [(i & -> & Hi)|[(_ & i & -> & Hi)|(_ & Hfull & ->)]].
  - apply lookup_lt_Some in Hi. rewrite capacity_occupants in Hi. lia.
  - apply lookup_lt_Some in Hi. rewrite capacity_occupants in Hi. lia.
  - unfold JsArray.forEach.
    destruct (least_recent_scan
                (JsArray.items (slotsUsage (extensionSettings w)))
                0 Infinity (-1))
      as [[_ Hno]|(n & t & -> & Hn & _)].
    + exfalso. rewrite <- capacity_occupants in Hcap.
      destruct (lookup_lt_is_Some_2 (occupants w) 0 Hcap) as [[key0|] H0].
      * destruct (synced_stamped w 0 Hs) as [_ Hst].
        destruct (Hst key0 H0) as [t Ht]. by specialize (Hno _ _ Ht).
      * apply Hfull. apply list_elem_of_lookup. by exists 0%nat.
    + simpl. apply lookup_lt_Some in Hn.
      change (defined <$> JsArray.items (slotsUsage (extensionSettings w)))
        with (lastUsed w) in Hn.
      rewrite synced_lastUsed_length in Hn by done. lia.
Qed.

Lemma synced_step op w :
  synced (extensionSettings w) → synced (extensionSettings (step op w)).
Proof.
  intros Hs. destruct op as [arg|now key|i|].
  - destruct (step_resize arg w) as [->|[_ ->]]; [done|].
    by apply synced_resize.
  - rewrite step_acquire. apply synced_allocate; [done|].
    by apply selected_range.
  - rewrite step_release. by apply synced_release.
  - rewrite step_releaseAll. by apply synced_fill.
Qed.

Lemma session_ok_after_app_ready h w rendered :
  settings_as_written (extensionSettings w) →
  session_ok h (handle h AppReady (session_at_load w rendered)).
Proof.
  intros [Hs Hstray]. unfold session_ok.
  rewrite handle_character_list, handle_currentSlot, handle_world.
  cbn [world session_at_load currentSlot op_of].
  split_and!.
  - by apply synced_step.
  - rewrite step_default_resize, capacity_refreshed. simpl.
    unfold JsArray.length. simpl. apply length_resize.
  - by rewrite step_default_resize.
  - apply (step_op_of_refreshed AppReady).
  - done.
  - by left.
Qed.

Lemma session_ok_handle h ev ses :
  session_ok h ses → session_ok h (handle h ev ses).
Proof.
  intros (Hs & Hcap & Hstray & Hpage & Hlist & Hcur). unfold session_ok.
  rewrite handle_character_list, handle_currentSlot, handle_world.
  assert (0 < capacity (world ses))%nat as Hpos by lia.
  split_and!.
  - by apply synced_step.
  - destruct ev as [| |slot| |now char]; unfold op_of.
    + rewrite step_default_resize, capacity_refreshed. simpl.
      unfold JsArray.length. simpl. apply length_resize.
    + rewrite step_default_resize, capacity_refreshed. simpl.
      unfold JsArray.length. simpl. apply length_resize.
    + change (step (OpRelease slot) (world ses))
        with (exec (releaseSlot slot) (world ses)).
      by rewrite release_capacity.
    + destruct (releaseAll_capacity (world ses)) as [-> _]. done.
    + change (step (OpAcquire now char) (world ses))
        with (exec (acquireSlot now char) (world ses)).
      rewrite acquire_capacity; [done|].
      pose proof (synced_selected_in_pool char (world ses) Hs Hpos). lia.
  - destruct ev as [| |slot| |now char]; unfold op_of.
    + by rewrite step_default_resize.
    + by rewrite step_default_resize.
    + rewrite step_release. simpl. unfold JsArray.delete.
      case_decide; simpl; [done|]. rewrite Hstray. apply delete_empty.
    + by rewrite step_releaseAll.
    + rewrite step_acquire. simpl.
      pose proof (synced_selected_in_pool char (world ses) Hs Hpos) as Hin.
      unfold JsArray.set. by repeat case_decide; try lia.
  - apply step_op_of_refreshed.
  - done.
  - destruct ev as [| |slot| |now char]; try done.
    right. eexists. split; [done|].
    pose proof (synced_selected_in_pool char (world ses) Hs Hpos) as Hin.
    rewrite Hcap in Hin. lia.
Qed.

Lemma session_ok_run h events ses :
  session_ok h ses → session_ok h (run_events h events ses).
Proof.
  revert ses. induction events as [|ev events IH]; intros ses Hok; [done|].
  simpl. apply IH. by apply session_ok_handle.
Qed.

Lemma run_events_app h events1 events2 ses :
  run_events h (events1 ++ events2) ses
  = run_events h events2 (run_events h events1 ses).
Proof. unfold run_events. by rewrite foldl_app. Qed.

Lemma session_ok_from_app_ready h events w rendered :
  settings_as_written (extensionSettings w) →
  session_ok h (run_events h (AppReady :: events) (session_at_load w rendered)).
Proof.
  intros Hw. simpl. by apply session_ok_run, session_ok_after_app_ready.
Qed.

Lemma run_events_currentSlot h events ses :
  Forall (λ ev, ∀ now char, ev ≠ GenerateBeforeCombinePrompts now char)
    events →
  currentSlot (run_events h events ses) = currentSlot ses.
Proof.
  revert ses. induction events as [|ev events IH]; intros ses Hno; [done|].
  apply Forall_cons in Hno as [Hev Hno]. simpl. rewrite IH by done.
  rewrite handle_currentSlot. destruct ev; try done. by destruct (Hev now char).
Qed.

Lemma settings_as_written_initial : settings_as_written (extensionSettings initial).
Proof. split; [constructor|reflexivity]. Qed.

(** X16: the slot handed downstream is a slot of the pool, provided the
    settings at load were as written (in particular: no stored slots). In
    a session loaded on such settings that began with [APP_READY], after
    any further events the capacity is 2, and the handler of
    [TEXT_COMPLETION_SETTINGS_READY] stores under "id_slot" either [null]
    or the index 0 or 1, and changes no other parameter; it stores [null]
    as long as no generation event occurred. *)
Theorem session_id_slot_in_range h {V} events w rendered
    (params : gmap string (CurrentSlot + V)) :
  settings_as_written (extensionSettings w) →
  capacity
    (world (run_events h (AppReady :: events) (session_at_load w rendered)))
  = 2%nat ∧
  (on_text_completion_settings_ready params
     (run_events h (AppReady :: events) (session_at_load w rendered))
     !! "id_slot"%string = Some (inl SlotNull) ∨
   ∃ i, on_text_completion_settings_ready params
          (run_events h (AppReady :: events) (session_at_load w rendered))
          !! "id_slot"%string = Some (inl (SlotNumber i)) ∧ 0 ≤ i < 2) ∧
  (∀ name, name ≠ "id_slot"%string →
     on_text_completion_settings_ready params
       (run_events h (AppReady :: events) (session_at_load w rendered)) !! name
     = params !! name) ∧
  (Forall (λ ev, ∀ now char, ev ≠ GenerateBeforeCombinePrompts now char)
     events →
   on_text_completion_settings_ready params
     (run_events h (AppReady :: events) (session_at_load w rendered))
     !! "id_slot"%string = Some (inl SlotNull)).
Proof.
  intros Hw.
  destruct (session_ok_from_app_ready h events w rendered Hw)
    as (_ & Hcap & _ & _ & _ & Hcur).
  unfold on_text_completion_settings_ready. split_and!.
  - done.
  - rewrite lookup_insert_eq.
    destruct Hcur as [->|(i & -> & Hi)]; [by left|right]. by exists i.
  - intros name Hne. by rewrite lookup_insert_ne.
  - intros Hno. rewrite lookup_insert_eq. do 2 f_equal.
    change (run_events h (AppReady :: events) (session_at_load w rendered))
      with (run_events h events (handle h AppReady (session_at_load w rendered))).
    rewrite run_events_currentSlot by done.
    by rewrite handle_currentSlot.
Qed.

Lemma session_id_slot_in_range_witness :
  settings_as_written (extensionSettings initial) ∧
  capacity
    (world
       (run_events
          {| characters := []; default_avatar := "default.png";
             getThumbnailUrl := λ kind file, file |}
          [AppReady; GenerateBeforeCombinePrompts 1 "a"]
          (session_at_load initial None))) = 2%nat ∧
  (on_text_completion_settings_ready (V:=string) ∅
     (run_events
        {| characters := []; default_avatar := "default.png";
           getThumbnailUrl := λ kind file, file |}
        [AppReady; GenerateBeforeCombinePrompts 1 "a"]
        (session_at_load initial None)) !! "id_slot"%string
   = Some (inl SlotNull) ∨
   ∃ i, on_text_completion_settings_ready (V:=string) ∅
          (run_events
             {| characters := []; default_avatar := "default.png";
                getThumbnailUrl := λ kind file, file |}
             [AppReady; GenerateBeforeCombinePrompts 1 "a"]
             (session_at_load initial None)) !! "id_slot"%string
        = Some (inl (SlotNumber i)) ∧ 0 ≤ i < 2).
Proof.
  pose proof settings_as_written_initial as Hw.
  split; [exact Hw|].
  pose proof (session_id_slot_in_range
                {| characters := []; default_avatar := "default.png";
                   getThumbnailUrl := λ kind file, file |}
                (V:=string) [GenerateBeforeCombinePrompts 1 "a"]
                initial None ∅ Hw) as H.
  exact (conj (proj1 H) (proj1 (proj2 H))).
Defined.

(** X17: the page is not stale, provided the settings at load were as
    written (in particular: no stored slots). In a session loaded on such
    settings that began with [APP_READY], after any further events the
    rendered character list is the one of the current slots, the used
    counter shows the number of its rows, which is the number of occupied
    slots and at most 2, and the available counter shows 2. *)
Theorem session_display_in_sync h events w rendered :
  settings_as_written (extensionSettings w) →
  slot_manager_character_list
    (run_events h (AppReady :: events) (session_at_load w rendered))
  = Some (character_rows h
            (extensionSettings
               (world (run_events h (AppReady :: events)
                         (session_at_load w rendered))))) ∧
  slot_manager_slots_used
    (page (world (run_events h (AppReady :: events)
                    (session_at_load w rendered))))
  = Some (length
            (character_rows h
               (extensionSettings
                  (world (run_events h (AppReady :: events)
                            (session_at_load w rendered)))))) ∧
  length
    (character_rows h
       (extensionSettings
          (world (run_events h (AppReady :: events)
                    (session_at_load w rendered)))))
  = length
      (filter is_Some
         (occupants
            (world (run_events h (AppReady :: events)
                      (session_at_load w rendered))))) ∧
  (length
     (character_rows h
        (extensionSettings
           (world (run_events h (AppReady :: events)
                     (session_at_load w rendered)))))
   ≤ 2)%nat ∧
  slot_manager_slots_available
    (page (world (run_events h (AppReady :: events)
                    (session_at_load w rendered))))
  = Some 2%nat.
Proof.
  intros Hw.
  destruct (session_ok_from_app_ready h events w rendered Hw)
    as (_ & Hcap & Hstray & Hpage & Hlist & _).
  set (ses := run_events h (AppReady :: events) (session_at_load w rendered))
    in *.
  assert (length (character_rows h (extensionSettings (world ses)))
          = length (filter is_Some (occupants (world ses)))) as Hrows.
  { pose proof (usedCount_formula (world ses)) as Hused.
    rewrite Hstray, map_to_list_empty in Hused. simpl in Hused.
    unfold usedCount, exec in Hused.
    rewrite updateSlotsAvailability_run in Hused. simpl in Hused.
    injection Hused as Hused.
    rewrite (count_used_rows h) in Hused. lia. }
  split_and!.
  - done.
  - rewrite Hpage. simpl. f_equal. apply count_used_rows.
  - done.
  - rewrite Hrows, <- Hcap, <- capacity_occupants. apply length_filter.
  - rewrite Hpage. simpl. f_equal. exact Hcap.
Qed.

Lemma session_display_in_sync_witness :
  settings_as_written (extensionSettings initial) ∧
  slot_manager_slots_used
    (page
       (world
          (run_events
             {| characters := []; default_avatar := "default.png";
                getThumbnailUrl := λ kind file, file |}
             [AppReady; GenerateBeforeCombinePrompts 1 "a"; ClickRelease 1]
             (session_at_load initial None))))
  = Some (length
            (character_rows
               {| characters := []; default_avatar := "default.png";
                  getThumbnailUrl := λ kind file, file |}
               (extensionSettings
                  (world
                     (run_events
                        {| characters := []; default_avatar := "default.png";
                           getThumbnailUrl := λ kind file, file |}
                        [AppReady; GenerateBeforeCombinePrompts 1 "a";
                         ClickRelease 1]
                        (session_at_load initial None)))))).
Proof.
  pose proof settings_as_written_initial as Hw.
  split; [exact Hw|].
  exact (proj1 (proj2 (session_display_in_sync
                         {| characters := []; default_avatar := "default.png";
                            getThumbnailUrl := λ kind file, file |}
                         [GenerateBeforeCombinePrompts 1 "a"; ClickRelease 1]
                         initial None Hw))).
Defined.

(** X18: after a generation event the slot handed downstream holds the
    character, provided the settings at load were as written (in
    particular: no stored slots). In a session loaded on such settings
    that began with [APP_READY], right after
    [GENERATE_BEFORE_COMBINE_PROMPTS] for a character, [currentSlot] is an
    index 0 or 1 whose slot holds that character with the time of the
    event, the rendered list has the row of that slot and character, and
    "id_slot" receives that index. *)
Theorem generate_points_at_character h {V} events now char w rendered
    (params : gmap string (CurrentSlot + V)) :
  settings_as_written (extensionSettings w) →
  ∃ i : nat,
    (i < 2)%nat ∧
    currentSlot
      (run_events h
         (AppReady :: events ++ [GenerateBeforeCombinePrompts now char])
         (session_at_load w rendered)) = SlotNumber (Z.of_nat i) ∧
    occupants
      (world
         (run_events h
            (AppReady :: events ++ [GenerateBeforeCombinePrompts now char])
            (session_at_load w rendered))) !! i = Some (Some char) ∧
    lastUsed
      (world
         (run_events h
            (AppReady :: events ++ [GenerateBeforeCombinePrompts now char])
            (session_at_load w rendered))) !! i = Some (Some now) ∧
    (∃ rows,
       slot_manager_character_list
         (run_events h
            (AppReady :: events ++ [GenerateBeforeCombinePrompts now char])
            (session_at_load w rendered)) = Some rows ∧
       {| Row.avatar := avatar_for h char; Row.name := char;
          Row.slot := Z.of_nat i |} ∈ rows) ∧
    on_text_completion_settings_ready params
      (run_events h
         (AppReady :: events ++ [GenerateBeforeCombinePrompts now char])
         (session_at_load w rendered)) !! "id_slot"%string
    = Some (inl (SlotNumber (Z.of_nat i))).
Proof.
  intros Hw. rewrite app_comm_cons, run_events_app.
  pose proof (session_ok_from_app_ready h events w rendered Hw) as Hok.
  pose proof Hok as (Hs & Hcap & Hstray & _ & _ & _).
  set (before := run_events h (AppReady :: events) (session_at_load w rendered))
    in *.
  pose proof (session_ok_handle h (GenerateBeforeCombinePrompts now char)
                before Hok)
    as (_ & _ & Hstray' & _ & Hlist' & _).
  cbn [run_events foldl]. fold (run_events h).
  change (foldl (λ ses ev, handle h ev ses)
            (handle h (GenerateBeforeCombinePrompts now char) before) [])
    with (handle h (GenerateBeforeCombinePrompts now char) before) in *.
  assert (0 < capacity (world before))%nat as Hpos by lia.
  pose proof (synced_selected_in_pool char (world before) Hs Hpos) as Hin.
  set (i := Z.to_nat (selected char (extensionSettings (world before)))).
  assert (selected char (extensionSettings (world before)) = Z.of_nat i)
    as Hsel by (unfold i; lia).
  assert (occupants
            (world (handle h (GenerateBeforeCombinePrompts now char) before))
            !! i = Some (Some char)) as Hocc.
  { rewrite handle_world.
    change (step (op_of (GenerateBeforeCombinePrompts now char)) (world before))
      with (exec (acquireSlot now char) (world before)).
    rewrite acquire_occupants by done.
    apply list_lookup_insert_eq. rewrite capacity_occupants. lia. }
  exists i. split_and!.
  - lia.
  - rewrite handle_currentSlot. by rewrite Hsel.
  - done.
  - rewrite handle_world.
    change (step (op_of (GenerateBeforeCombinePrompts now char)) (world before))
      with (exec (acquireSlot now char) (world before)).
    rewrite acquire_lastUsed
      by (rewrite synced_lastUsed_length by done; lia).
    apply list_lookup_insert_eq.
    rewrite synced_lastUsed_length by done. lia.
  - eexists. split; [exact Hlist'|].
    apply rows_elem_no_stray; [done|]. by exists i, char.
  - unfold on_text_completion_settings_ready.
    rewrite lookup_insert_eq, handle_currentSlot. by rewrite Hsel.
Qed.

Lemma generate_points_at_character_witness :
  settings_as_written (extensionSettings initial) ∧
  ∃ i : nat,
    (i < 2)%nat ∧
    currentSlot
      (run_events
         {| characters := []; default_avatar := "default.png";
            getThumbnailUrl := λ kind file, file |}
         (AppReady :: [GenerateBeforeCombinePrompts 1 "a"]
          ++ [GenerateBeforeCombinePrompts 2 "b"])
         (session_at_load initial None)) = SlotNumber (Z.of_nat i) ∧
    occupants
      (world
         (run_events
            {| characters := []; default_avatar := "default.png";
               getThumbnailUrl := λ kind file, file |}
            (AppReady :: [GenerateBeforeCombinePrompts 1 "a"]
             ++ [GenerateBeforeCombinePrompts 2 "b"])
            (session_at_load initial None))) !! i = Some (Some "b"%string).
Proof.
  pose proof settings_as_written_initial as Hw.
  split; [exact Hw|].
  destruct (generate_points_at_character
              {| characters := []; default_avatar := "default.png";
                 getThumbnailUrl := λ kind file, file |}
              (V:=string) [GenerateBeforeCombinePrompts 1 "a"] 2 "b"
              initial None ∅ Hw) as (i & Hi & Hcur & Hocc & _).
  exists i. exact (conj Hi (conj Hcur Hocc)).
Defined.

(** X19: releasing does not reset [currentSlot]. In a session loaded on
    settings as written (in particular: no stored slots) that began with
    [APP_READY], after a generation event followed by a click on "release
    all", every slot is empty and the rendered list has no row, yet
    "id_slot" still receives the index the generation event obtained. *)
Theorem release_all_leaves_id_slot h {V} events now char w rendered
    (params : gmap string (CurrentSlot + V)) :
  settings_as_written (extensionSettings w) →
  ∃ i : nat,
    (i < 2)%nat ∧
    currentSlot
      (run_events h
         (AppReady :: events ++ [GenerateBeforeCombinePrompts now char])
         (session_at_load w rendered)) = SlotNumber (Z.of_nat i) ∧
    on_text_completion_settings_ready params
      (run_events h
         (AppReady :: events
          ++ [GenerateBeforeCombinePrompts now char; ClickReleaseAll])
         (session_at_load w rendered)) !! "id_slot"%string
    = Some (inl (SlotNumber (Z.of_nat i))) ∧
    occupants
      (world
         (run_events h
            (AppReady :: events
             ++ [GenerateBeforeCombinePrompts now char; ClickReleaseAll])
            (session_at_load w rendered))) = [None; None] ∧
    slot_manager_character_list
      (run_events h
         (AppReady :: events
          ++ [GenerateBeforeCombinePrompts now char; ClickReleaseAll])
         (session_at_load w rendered)) = Some [].
Proof.
  intros Hw. rewrite !app_comm_cons, !run_events_app.
  pose proof (session_ok_from_app_ready h events w rendered Hw) as Hok.
  set (before := run_events h (AppReady :: events) (session_at_load w rendered))
    in *.
  pose proof Hok as (Hs & Hcap & _).
  pose proof (session_ok_handle h (GenerateBeforeCombinePrompts now char)
                before Hok) as Hok1.
  change (run_events h [GenerateBeforeCombinePrompts now char] before)
    with (handle h (GenerateBeforeCombinePrompts now char) before).
  set (mid := handle h (GenerateBeforeCombinePrompts now char) before) in *.
  pose proof Hok1 as (_ & Hcap1 & Hstray1 & _).
  pose proof (session_ok_handle h ClickReleaseAll mid Hok1)
    as (_ & _ & Hstray2 & _ & Hlist2 & _).
  change (run_events h
            [GenerateBeforeCombinePrompts now char; ClickReleaseAll] before)
    with (handle h ClickReleaseAll mid) in *.
  assert (0 < capacity (world before))%nat as Hpos by lia.
  pose proof (synced_selected_in_pool char (world before) Hs Hpos) as Hin.
  assert (occupants (world (handle h ClickReleaseAll mid)) = [None; None])
    as Hocc.
  { rewrite handle_world.
    change (step (op_of ClickReleaseAll) (world mid))
      with (step OpReleaseAll (world mid)).
    rewrite step_releaseAll, occupants_refreshed. simpl.
    rewrite fmap_replicate.
    change (JsArray.length (slots (extensionSettings (world mid))))
      with (capacity (world mid)).
    by rewrite Hcap1. }
  exists (Z.to_nat (selected char (extensionSettings (world before)))).
  split_and!.
  - lia.
  - unfold mid. rewrite handle_currentSlot. f_equal. lia.
  - unfold on_text_completion_settings_ready.
    rewrite lookup_insert_eq, handle_currentSlot. unfold mid.
    rewrite handle_currentSlot. do 3 f_equal. lia.
  - done.
  - rewrite Hlist2. f_equal.
    destruct (character_rows h _) as [|r rows] eqn:Hrows; [done|].
    assert (r ∈ character_rows h
                  (extensionSettings (world (handle h ClickReleaseAll mid))))
      as Hr' by (rewrite Hrows; left).
    apply rows_elem_no_stray in Hr' as (j & n & Hj & _); [|done].
    rewrite Hocc in Hj. by destruct j as [|[|j]].
Qed.

Lemma release_all_leaves_id_slot_witness :
  settings_as_written (extensionSettings initial) ∧
  occupants
    (world
       (run_events
          {| characters := []; default_avatar := "default.png";
             getThumbnailUrl := λ kind file, file |}
          (AppReady :: []
           ++ [GenerateBeforeCombinePrompts 1 "a"; ClickReleaseAll])
          (session_at_load initial None))) = [None; None] ∧
  on_text_completion_settings_ready (V:=string) ∅
    (run_events
       {| characters := []; default_avatar := "default.png";
          getThumbnailUrl := λ kind file, file |}
       (AppReady :: []
        ++ [GenerateBeforeCombinePrompts 1 "a"; ClickReleaseAll])
       (session_at_load initial None)) !! "id_slot"%string
  = Some (inl (SlotNumber 0)).
Proof.
  pose proof settings_as_written_initial as Hw.
  split; [exact Hw|].
  destruct (release_all_leaves_id_slot
              {| characters := []; default_avatar := "default.png";
                 getThumbnailUrl := λ kind file, file |}
              (V:=string) [] 1 "a" initial None ∅ Hw)
    as (i & _ & _ & _ & Hocc & _).
  split; [exact Hocc|]. reflexivity.
Defined.

(** ** Counting and eviction *)

Lemma occupied_after_insert {A} (l : list (option A)) (i : nat) (x : A) :
  (i < length l)%nat →
  length (filter is_Some (<[i := Some x]> l))
  = (length (filter is_Some l)
     + match l !! i with Some None => 1 | _ => 0 end)%nat.
Proof.
  revert i. induction l as [|o l IH]; intros i Hi; [simpl in Hi; lia|].
  destruct i as [|i].
  - change (<[0%nat := Some x]> (o :: l)) with (Some x :: l).
    change ((o :: l) !! 0%nat) with (Some o).
    rewrite filter_cons_True by (by eexists). destruct o as [y|].
    + rewrite filter_cons_True by (by eexists). simpl. lia.
    + rewrite filter_cons_False by (by intros [? ?]). simpl. lia.
  - change (<[S i := Some x]> (o :: l)) with (o :: <[i := Some x]> l).
    change ((o :: l) !! S i) with (l !! i).
    simpl in Hi. specialize (IH i ltac:(lia)). destruct o as [y|].
    + rewrite !filter_cons_True by (by eexists). cbn [length].
      rewrite IH. lia.
    + rewrite !filter_cons_False by (by intros [? ?]). exact IH.
Qed.

(** X20: how [acquireSlot] moves the number of occupied slots. In a
    reachable state with capacity > 0 the number goes up by one when the
    key is not held and some slot is empty, and stays the same otherwise:
    reuse and eviction never change it. *)
Theorem acquire_occupied_count now key w :
  reachable w → (0 < capacity w)%nat →
  length (filter is_Some (occupants (exec (acquireSlot now key) w)))
  = (length (filter is_Some (occupants w))
     + if decide (Some key ∉ occupants w ∧ None ∈ occupants w)
       then 1 else 0)%nat.
Proof.
  intros Hr Hcap.
  pose proof (selected_in_pool key w Hr Hcap) as Hin.
  rewrite acquire_occupants by done.
  rewrite occupied_after_insert by (rewrite capacity_occupants; lia).
  f_equal.
  destruct (selected_cases key w)
    as [(i & Hsel & Hi)|[(Hno & i & Hsel & Hi)|(Hno & Hfull & Hs)]].
  - rewrite Hsel, Nat2Z.id, Hi.
    rewrite decide_False; [done|]. intros [Hno _]. apply Hno.
    apply list_elem_of_lookup. by exists i.
  - rewrite Hsel, Nat2Z.id, Hi.
    rewrite decide_True; [done|]. split; [done|].
    apply list_elem_of_lookup. by exists i.
  - rewrite decide_False by (by intros [_ ?]).
    destruct (occupants w !! Z.to_nat (selected key (extensionSettings w)))
      as [[k|]|] eqn:Ho; [done| |done].
    exfalso. apply Hfull. apply list_elem_of_lookup. by eexists.
Qed.

Lemma acquire_occupied_count_witness :
  reachable (run [OpResize None; OpAcquire 1 "a"] initial) ∧
  (0 < capacity (run [OpResize None; OpAcquire 1 "a"] initial))%nat ∧
  length
    (filter is_Some
       (occupants
          (exec (acquireSlot 2 "b")
             (run [OpResize None; OpAcquire 1 "a"] initial))))
  = (length
       (filter is_Some
          (occupants (run [OpResize None; OpAcquire 1 "a"] initial)))
     + if decide
            ((Some "b"%string
                ∉ occupants (run [OpResize None; OpAcquire 1 "a"] initial))
             ∧ (None ∈ occupants (run [OpResize None; OpAcquire 1 "a"] initial)))
       then 1 else 0)%nat.
Proof.
  assert (reachable (run [OpResize None; OpAcquire 1 "a"] initial)) as Hr
    by (by exists [OpResize None; OpAcquire 1 "a"]).
  assert (0 < capacity (run [OpResize None; OpAcquire 1 "a"] initial))%nat
    as Hcap by (vm_compute; lia).
  split; [exact Hr|]. split; [exact Hcap|].
  exact (acquire_occupied_count 2 "b" _ Hr Hcap).
Defined.

(** X21: eviction loses exactly one key, the least recently used. In a
    reachable state with capacity > 0 where the key is not held and no
    slot is empty, [acquireSlot] returns a slot whose former key has the
    smallest timestamp; afterwards that former key is held nowhere, the
    new key is in its slot, and every other slot holds what it held. *)
Theorem eviction_replaces_one now key w :
  reachable w → (0 < capacity w)%nat →
  Some key ∉ occupants w → None ∉ occupants w →
  ∃ (i : nat) old t,
    outcome (acquireSlot now key) w = Normal (Z.of_nat i) ∧
    occupants w !! i = Some (Some old) ∧
    lastUsed w !! i = Some (Some t) ∧
    (∀ (j : nat) t', lastUsed w !! j = Some (Some t') → t ≤ t') ∧
    Some old ∉ occupants (exec (acquireSlot now key) w) ∧
    occupants (exec (acquireSlot now key) w) !! i = Some (Some key) ∧
    (∀ j : nat, j ≠ i →
       occupants (exec (acquireSlot now key) w) !! j = occupants w !! j).
Proof.
  intros Hr Hcap Hno Hfull.
  destruct (eviction_choice w Hr Hcap Hfull)
    as (n & t & Hscan & Hn & Hmin & _).
  assert (selected key (extensionSettings w) = Z.of_nat n) as Hsel
    by (by rewrite selected_eviction, Hscan).
  pose proof (selected_in_pool key w Hr Hcap) as Hin.
  assert (n < length (occupants w))%nat as Hlt
    by (rewrite capacity_occupants; lia).
  destruct (lookup_lt_is_Some_2 _ _ Hlt) as [[old|] Hold]; last first.
  { exfalso. apply Hfull. apply list_elem_of_lookup. by exists n. }
  exists n, old, t.
  rewrite acquire_outcome, acquire_occupants by done.
  rewrite Hsel, Nat2Z.id. split_and!; try done.
  - intros (j & Hj)%list_elem_of_lookup.
    apply list_lookup_insert_Some in Hj as [(_ & [= ->] & _)|[Hne Hj]].
    + apply Hno. apply list_elem_of_lookup. by exists n.
    + apply Hne. by apply (reachable_unique w Hr n j old).
  - by apply list_lookup_insert_eq.
  - intros j Hne. by apply list_lookup_insert_ne.
Qed.

Lemma eviction_replaces_one_witness :
  reachable (run [OpResize None; OpAcquire 1 "a"; OpAcquire 2 "b"] initial) ∧
  (0 < capacity
         (run [OpResize None; OpAcquire 1 "a"; OpAcquire 2 "b"] initial))%nat ∧
  (Some "c"%string
     ∉ occupants (run [OpResize None; OpAcquire 1 "a"; OpAcquire 2 "b"] initial))
  ∧
  (None
     ∉ occupants (run [OpResize None; OpAcquire 1 "a"; OpAcquire 2 "b"] initial))
  ∧
  ∃ (i : nat) old t,
    outcome (acquireSlot 3 "c")
      (run [OpResize None; OpAcquire 1 "a"; OpAcquire 2 "b"] initial)
    = Normal (Z.of_nat i) ∧
    occupants (run [OpResize None; OpAcquire 1 "a"; OpAcquire 2 "b"] initial)
      !! i = Some (Some old) ∧
    lastUsed (run [OpResize None; OpAcquire 1 "a"; OpAcquire 2 "b"] initial)
      !! i = Some (Some t) ∧
    (∀ (j : nat) t',
       lastUsed (run [OpResize None; OpAcquire 1 "a"; OpAcquire 2 "b"] initial)
         !! j = Some (Some t') → t ≤ t') ∧
    (Some old
       ∉ occupants
           (exec (acquireSlot 3 "c")
              (run [OpResize None; OpAcquire 1 "a"; OpAcquire 2 "b"] initial)))
    ∧
    occupants
      (exec (acquireSlot 3 "c")
         (run [OpResize None; OpAcquire 1 "a"; OpAcquire 2 "b"] initial))
      !! i = Some (Some "c"%string) ∧
    (∀ j : nat, j ≠ i →
       occupants
         (exec (acquireSlot 3 "c")
            (run [OpResize None; OpAcquire 1 "a"; OpAcquire 2 "b"] initial))
         !! j
       = occupants
           (run [OpResize None; OpAcquire 1 "a"; OpAcquire 2 "b"] initial)
           !! j).
Proof.
  assert (reachable
            (run [OpResize None; OpAcquire 1 "a"; OpAcquire 2 "b"] initial))
    as Hr by (by exists [OpResize None; OpAcquire 1 "a"; OpAcquire 2 "b"]).
  assert (0 < capacity
                (run [OpResize None; OpAcquire 1 "a"; OpAcquire 2 "b"] initial))%nat
    as Hcap by (vm_compute; lia).
  assert (Some "c"%string
            ∉ occupants
                (run [OpResize None; OpAcquire 1 "a"; OpAcquire 2 "b"] initial))
    as Hno
    by (vm_compute; intros H%list_elem_of_In; simpl in H; intuition congruence).
  assert (None
            ∉ occupants
                (run [OpResize None; OpAcquire 1 "a"; OpAcquire 2 "b"] initial))
    as Hfull
    by (vm_compute; intros H%list_elem_of_In; simpl in H; intuition congruence).
  split; [exact Hr|]. split; [exact Hcap|].
  split; [exact Hno|]. split; [exact Hfull|].
  exact (eviction_replaces_one 3 "c" _ Hr Hcap Hno Hfull).
Defined.
